(** * Loop detection on state machines (dace/transformation/interstate/loop_detection.py)

    A shallow embedding of [DetectLoop.can_be_applied] and [find_for_loop],
    together with the collaborators they call (symbolic expressions, the
    state graph, the dominance analysis and the conditional traversal). *)

From Stdlib Require Import ZArith Lia.
From stdpp Require Import base option list strings gmap.

Local Open Scope Z_scope.
Local Open Scope string_scope.
Local Open Scope list_scope.

(* ===================================================================== *)
(** ** Outcomes of a call: a returned value, a raised exception, or a loop
       that never exits. *)
(* ===================================================================== *)

Inductive exn : Type := IndexError | KeyError.

Inductive outcome (A : Type) : Type :=
  | Return (a : A)
  | Raise (e : exn)
  | Diverges.
Arguments Return {A} a.
Arguments Raise {A} e.
Arguments Diverges {A}.

(** Sequencing: an exception or a divergence of the first step is the
    outcome of the whole. *)
Definition bind {A B : Type} (m : outcome A) (f : A -> outcome B) : outcome B :=
  match m with
  | Return a => f a
  | Raise e => Raise e
  | Diverges => Diverges
  end.

Notation "x <- m ;; k" := (bind m (fun x => k))
  (at level 100, m at next level, right associativity).

(** [l[i]] on a Python list. *)
Definition index {A} (l : list A) (i : nat) : outcome A :=
  match l !! i with
  | Some a => Return a
  | None => Raise IndexError
  end.

(* ===================================================================== *)
(** ** Symbolic expressions *)
(* ===================================================================== *)

Module symbolic.

(** Modelled from the spec: the Expression Model (sympy behind
    [dace.symbolic], neither under src/).  Arithmetic expressions are
    built from symbols, integer constants, + and -, and the engine keeps
    them simplified (constant folding, symbol cancellation); an expression
    is therefore held in its simplified form, a constant plus a finite
    map from symbol names to non-zero coefficients, and structural
    equality is equality of these forms. *)
Record expr : Type := Lin { const : Z; terms : gmap string Z }.

#[global] Instance expr_eq_dec : EqDecision expr.
Proof. solve_decision. Defined.

Definition symbol (s : string) : expr := Lin 0 {[ s := 1 ]}.
Definition integer (n : Z) : expr := Lin n ∅.

Definition nonzero (z : Z) : option Z := if decide (z = 0) then None else Some z.

(** Modelled from the spec: [a + b] and [a - b], with the simplification the
    engine applies on construction: constants are folded, coefficients of
    the same symbol are combined and a symbol whose coefficient becomes 0
    disappears. *)
Definition add (a b : expr) : expr :=
  Lin (const a + const b)
      (merge (fun x y =>
                match x, y with
                | None, None => None
                | _, _ => nonzero (default 0 x + default 0 y)
                end) (terms a) (terms b)).

Definition sub (a b : expr) : expr :=
  Lin (const a - const b)
      (merge (fun x y =>
                match x, y with
                | None, None => None
                | _, _ => nonzero (default 0 x - default 0 y)
                end) (terms a) (terms b)).

(** Modelled from the spec: [expr.free_symbols], the symbols that occur in
    the simplified expression. *)
Definition free_symbols (e : expr) : gset string := dom (terms e).

(** [s in e.free_symbols] *)
Definition has_free_symbol (s : string) (e : expr) : bool :=
  bool_decide (s ∈ free_symbols e).

(** The four comparison classes: [<], [<=], [>], [>=]. *)
Inductive relop : Type :=
  StrictLessThan | LessThan | StrictGreaterThan | GreaterThan.

#[global] Instance relop_eq_dec : EqDecision relop.
Proof. solve_decision. Defined.

(** Boolean expressions: the two constants, a comparison of two arithmetic
    expressions, a boolean symbol, and a negation that did not simplify. *)
Inductive cond : Type :=
  | BooleanTrue
  | BooleanFalse
  | Rel (op : relop) (lhs rhs : expr)
  | BSymbol (s : string)
  | NotNode (c : cond).

#[global] Instance cond_eq_dec : EqDecision cond.
Proof. solve_decision. Defined.

Definition negated (op : relop) : relop :=
  match op with
  | StrictLessThan => GreaterThan
  | LessThan => StrictGreaterThan
  | StrictGreaterThan => LessThan
  | GreaterThan => StrictLessThan
  end.

(** Modelled from the spec: [sp.Not], logical negation with its algebraic
    normalization: constants flip, a comparison becomes the complementary
    comparison, a double negation cancels, anything else stays under a
    negation node. *)
Definition Not (c : cond) : cond :=
  match c with
  | BooleanTrue => BooleanFalse
  | BooleanFalse => BooleanTrue
  | Rel op l r => Rel (negated op) l r
  | NotNode c' => c'
  | BSymbol s => NotNode (BSymbol s)
  end.

(** A comparison template [lhs op a] where [a] is the single wildcard
    ([sp.Wild('a')]). *)
Record template : Type := Template { t_op : relop; t_lhs : expr }.

(** Modelled from the spec: [condition.match(template)], the single
    wildcard match.  The result is the sub-expression bound to the
    wildcard, or a miss: the condition must be a comparison of the same
    class whose left-hand side is structurally the template's. *)
Definition match_ (c : cond) (t : template) : option expr :=
  match c with
  | Rel op l r =>
      if decide (op = t_op t) then
        if decide (l = t_lhs t) then Some r else None
      else None
  | _ => None
  end.

End symbolic.

Import symbolic.


(* ===================================================================== *)
(** ** The state graph *)
(* ===================================================================== *)

(** An [SDFGState]: an opaque identity. *)
Abbreviation state := nat (only parsing).

(** [InterstateEdge]: the assignments, a Python dict from variable names to
    expressions, kept in insertion order (its keys are pairwise distinct),
    and the condition.  Both are held parsed, as [pystr_to_symbolic] and
    [condition_sympy()] hand them to the code below. *)
Record InterstateEdge : Type := {
  assignments : list (string * expr);
  condition_sympy : cond
}.

Record Edge : Type := { src : state; dst : state; data : InterstateEdge }.

(** The graph: its node list (a node id is a position in it), its edges in
    listing order and its designated start state. *)
Record SDFG : Type := {
  nodes : list state;
  edges : list Edge;
  start_state : state
}.

(** [graph.node(id)] *)
Definition node (graph : SDFG) (id : nat) : outcome state := index (nodes graph) id.

(** [graph.in_edges(n)], [graph.out_edges(n)], [graph.edges_between(u, v)] *)
Definition in_edges (graph : SDFG) (n : state) : list Edge :=
  filter (fun e => dst e = n) (edges graph).
Definition out_edges (graph : SDFG) (n : state) : list Edge :=
  filter (fun e => src e = n) (edges graph).
Definition edges_between (graph : SDFG) (u v : state) : list Edge :=
  filter (fun e => src e = u ∧ dst e = v) (edges graph).

Definition successors (graph : SDFG) (n : state) : list state :=
  dst <$> out_edges graph n.

(** [list(d.keys())], [k in d] and [d[k]] on an assignment dict. *)
Definition keys (d : list (string * expr)) : list string := fst <$> d.
Definition contains (d : list (string * expr)) (k : string) : bool :=
  bool_decide (k ∈ keys d).
Fixpoint getitem (d : list (string * expr)) (k : string) : outcome expr :=
  match d with
  | [] => Raise KeyError
  | (k', v) :: d' => if decide (k' = k) then Return v else getitem d' k
  end.

(* ===================================================================== *)
(** ** Dominance *)
(* ===================================================================== *)

Module dominance.

(** One sweep over the edge list: the destinations of the edges that leave
    a node already reached are added, except the node to avoid. *)
Definition sweep (G : SDFG) (avoid : option state) (R : gset state) : gset state :=
  R ∪ list_to_set
        (dst <$> filter (fun e => src e ∈ R ∧ avoid ≠ Some (dst e)) (edges G)).

(** The nodes that a path from [start] reaches without passing through
    [avoid].  A sweep that adds nothing is a fixed point and each other
    sweep adds the destination of some edge, so [length (edges G)] sweeps
    are enough. *)
Definition reachable_avoiding (G : SDFG) (avoid : option state) (start : state)
  : gset state :=
  if decide (avoid = Some start) then ∅
  else Nat.iter (length (edges G)) (sweep G avoid) {[ start ]}.

Definition reachable (G : SDFG) (start : state) : gset state :=
  reachable_avoiding G None start.

(** [d] strictly dominates [n]: [d] is another reachable node and every
    path from [start] to [n] passes through [d]. *)
Definition strict_dominators (G : SDFG) (start n : state) : gset state :=
  filter (fun d => d ≠ n ∧ n ∉ reachable_avoiding G (Some d) start)
         (reachable G start).

(** The closest strict dominator: the strict dominators of a node form a
    chain, and the immediate one is the one that has all the others as its
    own strict dominators. *)
Definition idom (G : SDFG) (start n : state) : state :=
  if decide (n = start) then start
  else
    let sd := strict_dominators G start n in
    default n
      (head (elements
         (filter (fun d => S (size (strict_dominators G start d)) = size sd) sd))).

(** Modelled from the spec: the Dominance Analyzer
    ([nx.dominance.immediate_dominators], not under src/): the dict from
    every node reachable from [start] to its immediate dominator, the
    start node mapping to itself. *)
Definition immediate_dominators (G : SDFG) (start : state) : gmap state state :=
  set_to_map (fun n => (n, idom G start n)) (reachable G start).

End dominance.

(* ===================================================================== *)
(** ** Conditional depth-first traversal *)
(* ===================================================================== *)

Module sdutil.

(** A stack frame: a parent and the children still to be looked at. *)
Definition frame : Type := state * list state.

Fixpoint dfs_loop (G : SDFG) (condition : state -> state -> bool) (fuel : nat)
    (stack : list frame) (visited : gset state) (out : list state)
  : option (gset state * list state) :=
  match fuel with
  | O => None
  | S fuel' =>
      match stack with
      | [] => Some (visited, out)
      | (parent, []) :: stack' =>
          dfs_loop G condition fuel' stack' visited out
      | (parent, child :: children) :: stack' =>
          if decide (child ∈ visited) then
            dfs_loop G condition fuel' ((parent, children) :: stack') visited out
          else if condition parent child then
            dfs_loop G condition fuel'
              ((child, successors G child) :: (parent, children) :: stack')
              ({[ child ]} ∪ visited) (out ++ [child])
          else
            dfs_loop G condition fuel' ((parent, children) :: stack')
              ({[ child ]} ∪ visited) (out ++ [child])
      end
  end.

Definition dfs_fuel (G : SDFG) : nat :=
  S (S (length (edges G)) * S (length (edges G))).

Fixpoint dfs_sources (G : SDFG) (condition : state -> state -> bool)
    (sources : list state) (visited : gset state) (out : list state)
  : option (list state) :=
  match sources with
  | [] => Some out
  | start :: sources' =>
      if decide (start ∈ visited) then dfs_sources G condition sources' visited out
      else
        match dfs_loop G condition (dfs_fuel G) [(start, successors G start)]
                ({[ start ]} ∪ visited) (out ++ [start]) with
        | Some (visited', out') => dfs_sources G condition sources' visited' out'
        | None => None
        end
  end.

(** Modelled from the spec: [sdutil.dfs_conditional] (not under src/), the
    forward traversal in depth-first pre-order from [sources].  A child
    for which [condition parent child] fails is not expanded, but it is
    still recorded once reached.  The result is the list of the nodes in
    the order they are produced; [None] stands for a traversal that does
    not end within [dfs_fuel]. *)
Definition dfs_conditional (G : SDFG) (sources : list state)
    (condition : state -> state -> bool) : option (list state) :=
  dfs_sources G condition sources ∅ [].

End sdutil.

(* ===================================================================== *)
(** ** DetectLoop *)
(* ===================================================================== *)

(** The three nodes of the two patterns of [DetectLoop.expressions]. *)
Inductive pattern_node : Type := _loop_guard | _loop_begin | _exit_state.

(** A candidate: the dict from pattern nodes to node ids of the graph. *)
Definition Candidate : Type := pattern_node -> nat.

(** The [while ... else] of [can_be_applied]: [Return true] when the loop is
    left by [break] (the guard was met), [Return false] when its condition
    fails ([else: return False]). *)
Fixpoint dominator_walk (dominators : gmap state state) (guard : state)
    (fuel : nat) (dom : state) : outcome bool :=
  match fuel with
  | O => Diverges
  | S fuel' =>
      match dominators !! dom with
      | None => Raise KeyError
      | Some d =>
          if decide (dom ≠ d) then
            if decide (dom = guard) then Return true
            else dominator_walk dominators guard fuel' d
          else Return false
      end
  end.

(** [any(e.dst == guard for e in graph.out_edges(node))] *)
Definition has_edge_to (graph : SDFG) (node guard : state) : bool :=
  existsb (fun e => bool_decide (dst e = guard)) (out_edges graph node).

(** The [for node in loop_nodes] loop and the two statements after it. *)
Fixpoint check_loop_nodes (graph : SDFG) (dominators : gmap state state)
    (guard : state) (loop_nodes : list state) (backedge_found : bool)
  : outcome bool :=
  match loop_nodes with
  | [] => if negb backedge_found then Return false else Return true
  | node :: rest =>
      let backedge_found :=
        if has_edge_to graph node guard then true else backedge_found in
      inside <- dominator_walk dominators guard (S (size dominators)) node ;;
      if inside then check_loop_nodes graph dominators guard rest backedge_found
      else Return false
  end.

(** [DetectLoop.can_be_applied].  The edges are read from [graph], the
    dominators and the traversal from [sdfg], as in the source.  The source
    consumes the traversal as a generator inside the loop; the traversal has
    no effect of its own and always ends, so its list is taken first. *)
Definition can_be_applied (graph : SDFG) (candidate : Candidate)
    (expr_index : nat) (sdfg : SDFG) (strict : bool) : outcome bool :=
  guard <- node graph (candidate _loop_guard) ;;
  begin <- node graph (candidate _loop_begin) ;;
  let guard_inedges := in_edges graph guard in
  if decide (length guard_inedges ≠ 2%nat) then Return false else
  let guard_outedges := out_edges graph guard in
  if decide (length guard_outedges ≠ 2%nat) then Return false else
  in0 <- index guard_inedges 0 ;;
  in1 <- index guard_inedges 1 ;;
  if decide (length (assignments (data in0)) ≠ 1%nat
             ∨ length (assignments (data in1)) ≠ 1%nat) then Return false else
  itervar <- index (keys (assignments (data in0))) 0 ;;
  if negb (contains (assignments (data in1)) itervar) then Return false else
  if existsb (fun e => bool_decide (0 < length (assignments (data e)))%nat)
       guard_outedges then Return false else
  out0 <- index guard_outedges 0 ;;
  out1 <- index guard_outedges 1 ;;
  if decide (condition_sympy (data out0) ≠ Not (condition_sympy (data out1)))
  then Return false else
  let dominators := dominance.immediate_dominators sdfg (start_state sdfg) in
  match sdutil.dfs_conditional sdfg [begin]
          (fun _ child => bool_decide (child ≠ guard)) with
  | None => Diverges
  | Some loop_nodes => check_loop_nodes graph dominators guard loop_nodes false
  end.

(* ===================================================================== *)
(** ** find_for_loop *)
(* ===================================================================== *)

(** [(start, end, stride)] *)
Definition Range : Type := expr * expr * expr.

(** The four template tests on the condition.  [a] is the wildcard; a miss
    leaves [end] as it is. *)
Definition find_end (itersym : expr) (condition : cond) : option expr :=
  let end_ : option expr := None in
  let end_ :=
    match match_ condition (Template StrictLessThan itersym) with
    | Some a => Some (sub a (integer 1))
    | None => end_
    end in
  let end_ :=
    if end_ is None then
      match match_ condition (Template LessThan itersym) with
      | Some a => Some a
      | None => end_
      end
    else end_ in
  let end_ :=
    if end_ is None then
      match match_ condition (Template StrictGreaterThan itersym) with
      | Some a => Some (add a (integer 1))
      | None => end_
      end
    else end_ in
  let end_ :=
    if end_ is None then
      match match_ condition (Template GreaterThan itersym) with
      | Some a => Some a
      | None => end_
      end
    else end_ in
  end_.

(** [find_for_loop].  The two tests of the [if] and the [elif] are kept with
    their short-circuit, so that a missing second incoming edge or a missing
    assignment raises where the source raises. *)
Definition find_for_loop (sdfg : SDFG) (guard entry : state)
  : outcome (option (string * Range)) :=
  let guard_inedges := in_edges sdfg guard in
  condition_edge <- index (edges_between sdfg guard entry) 0 ;;
  in0 <- index guard_inedges 0 ;;
  itervar <- index (keys (assignments (data in0))) 0 ;;
  let condition := condition_sympy (data condition_edge) in
  let itersym := symbol itervar in
  (* guard_inedges[k].data.assignments[itervar] *)
  let assigned (k : nat) : outcome expr :=
    e <- index guard_inedges k ;; getitem (assignments (data e)) itervar in
  let finish (start stride : expr) : outcome (option (string * Range)) :=
    match find_end itersym condition with
    | None => Return None
    | Some end_ => Return (Some (itervar, (start, end_, stride)))
    end in
  first <- (e0 <- assigned 0%nat ;;
            if has_free_symbol itervar e0
            then e1 <- assigned 1%nat ;; Return (negb (has_free_symbol itervar e1))
            else Return false) ;;
  if first then
    e0 <- assigned 0%nat ;;
    let stride := sub e0 itersym in
    e1 <- assigned 1%nat ;;
    finish e1 stride
  else
    second <- (e1 <- assigned 1%nat ;;
               if has_free_symbol itervar e1
               then e0 <- assigned 0%nat ;; Return (negb (has_free_symbol itervar e0))
               else Return false) ;;
    if second then
      e1 <- assigned 1%nat ;;
      let stride := sub e1 itersym in
      e0 <- assigned 0%nat ;;
      finish e0 stride
    else Return None.

(* ===================================================================== *)
(** ** Vocabulary of the statements *)
(* ===================================================================== *)

(** The guard passes every check that [can_be_applied] makes on its edges:
    two incoming edges that each assign the one variable [itervar], two
    outgoing edges without assignments whose conditions are negations. *)
Definition passes_edge_checks (graph : SDFG) (guard : state) : Prop :=
  ∃ in0 in1 out0 out1 itervar e0 e1,
    in_edges graph guard = [in0; in1] ∧
    out_edges graph guard = [out0; out1] ∧
    assignments (data in0) = [(itervar, e0)] ∧
    assignments (data in1) = [(itervar, e1)] ∧
    assignments (data out0) = [] ∧
    assignments (data out1) = [] ∧
    condition_sympy (data out0) = Not (condition_sympy (data out1)).

(** The outcome of the walk up the dominator chain from a traversed node. *)
Definition walk_from (dominators : gmap state state) (guard n : state) : outcome bool :=
  dominator_walk dominators guard (S (size dominators)) n.

(** The chain of immediate dominators above a node: [climbs n k m] when
    [k] steps up from [n] lead to [m], none of the nodes left on the way
    being the guard or the root. *)
Inductive climbs (dominators : gmap state state) (guard : state)
  : state -> nat -> state -> Prop :=
  | climbs_here n : climbs dominators guard n 0 n
  | climbs_up n d k m :
      dominators !! n = Some d -> n ≠ d -> n ≠ guard ->
      climbs dominators guard d k m -> climbs dominators guard n (S k) m.

(** The value returned once start and stride are known: [None] when no
    template gave an end. *)
Definition loop_result (itervar : string) (start stride : expr) (end_ : option expr)
  : option (string * Range) :=
  match end_ with
  | None => None
  | Some e => Some (itervar, (start, e, stride))
  end.

(** Every child met by the traversal is the destination of an edge. *)
Definition universe (G : SDFG) : gset state := list_to_set (dst <$> edges G).
Definition width (G : SDFG) : nat := S (length (edges G)).

Definition frames_weight (stack : list sdutil.frame) : nat :=
  sum_list ((fun f => S (length f.2)) <$> stack).

(** What is left to do: the nodes not yet visited, each counted for a
    frame with all the edges, and the children still on the stack. *)
Definition work_left (G : SDFG) (stack : list sdutil.frame) (visited : gset state) : nat :=
  (width G * size (universe G ∖ visited) + frames_weight stack)%nat.

Definition children_known (G : SDFG) (stack : list sdutil.frame) : Prop :=
  Forall (fun f : sdutil.frame => Forall (fun c => c ∈ universe G) f.2) stack.

(** The number of strict dominators of a node: its depth in the tree. *)
Definition depth (G : SDFG) (start n : state) : nat :=
  size (dominance.strict_dominators G start n).

(* ===================================================================== *)
(** ** Example graphs *)
(* ===================================================================== *)

Module examples.

Definition i : expr := symbol "i".

Definition plain (u v : state) : Edge :=
  {| src := u; dst := v;
     data := {| assignments := []; condition_sympy := BooleanTrue |} |}.
Definition assign (u v : state) (x : string) (e : expr) : Edge :=
  {| src := u; dst := v;
     data := {| assignments := [(x, e)]; condition_sympy := BooleanTrue |} |}.
Definition branch (u v : state) (c : cond) : Edge :=
  {| src := u; dst := v;
     data := {| assignments := []; condition_sympy := c |} |}.

(** States: 0 precedes the loop, 1 is the guard, 2 the loop body, 3 the
    exit. *)
Definition init : state := 0%nat.
Definition guard : state := 1%nat.
Definition body : state := 2%nat.
Definition exit : state := 3%nat.

(** The loop [for i = 0; c; i = i + 1] whose exit edge carries [c_exit]. *)
Definition loop_with (c c_exit : cond) : SDFG :=
  {| nodes := [init; guard; body; exit];
     edges := [ assign init guard "i" (integer 0);
                branch guard body c;
                branch guard exit c_exit;
                assign body guard "i" (add i (integer 1)) ];
     start_state := init |}.

Definition i_lt_10 : cond := Rel StrictLessThan i (integer 10).

Definition canonical : SDFG := loop_with i_lt_10 (Not i_lt_10).

Definition candidate : Candidate := fun p =>
  match p with
  | _loop_guard => 1%nat
  | _loop_begin => 2%nat
  | _exit_state => 3%nat
  end.

(** The same loop with the increment edge listed before the
    initialization edge. *)
Definition canonical_increment_first : SDFG :=
  {| nodes := [init; guard; body; exit];
     edges := [ assign body guard "i" (add i (integer 1));
                branch guard body i_lt_10;
                branch guard exit (Not i_lt_10);
                assign init guard "i" (integer 0) ];
     start_state := init |}.

(** Exit conditions that are not negations of each other: [i < 10] and
    [i > 10]. *)
Definition i_gt_10 : cond := Rel StrictGreaterThan i (integer 10).
Definition not_negated : SDFG := loop_with i_lt_10 i_gt_10.

(** The other three condition shapes on the same loop. *)
Definition i_le_10 : cond := Rel LessThan i (integer 10).
Definition i_gt_0 : cond := Rel StrictGreaterThan i (integer 0).
Definition i_ge_0 : cond := Rel GreaterThan i (integer 0).
(** A condition of no supported shape: [10 > i]. *)
Definition ten_gt_i : cond := Rel StrictGreaterThan (integer 10) i.

(** A descending loop: [i := 10], [i := i - 1], continued while [i > 0]. *)
Definition descending : SDFG :=
  {| nodes := [init; guard; body; exit];
     edges := [ assign init guard "i" (integer 10);
                branch guard body i_gt_0;
                branch guard exit (Not i_gt_0);
                assign body guard "i" (sub i (integer 1)) ];
     start_state := init |}.

(** Both incoming expressions contain [i]: [i := i - 1] and [i := i + 1]. *)
Definition both_contain : SDFG :=
  {| nodes := [init; guard; body; exit];
     edges := [ assign init guard "i" (sub i (integer 1));
                branch guard body i_lt_10;
                branch guard exit (Not i_lt_10);
                assign body guard "i" (add i (integer 1)) ];
     start_state := init |}.

(** The initialization edge also assigns [j], listed first. *)
Definition init_two (u v : state) : Edge :=
  {| src := u; dst := v;
     data := {| assignments := [("j", integer 5); ("i", integer 0)];
                condition_sympy := BooleanTrue |} |}.
Definition two_assignments : SDFG :=
  {| nodes := [init; guard; body; exit];
     edges := [ assign body guard "i" (add i (integer 1));
                branch guard body i_lt_10;
                branch guard exit (Not i_lt_10);
                init_two init guard ];
     start_state := init |}.
Definition two_assignments_swapped : SDFG :=
  {| nodes := [init; guard; body; exit];
     edges := [ init_two init guard;
                branch guard body i_lt_10;
                branch guard exit (Not i_lt_10);
                assign body guard "i" (add i (integer 1)) ];
     start_state := init |}.

(** The two incoming edges assign different variables. *)
Definition different_variables : SDFG :=
  {| nodes := [init; guard; body; exit];
     edges := [ assign init guard "j" (integer 0);
                branch guard body i_lt_10;
                branch guard exit (Not i_lt_10);
                assign body guard "i" (add i (integer 1)) ];
     start_state := init |}.

(** A guard with a third incoming edge. *)
Definition three_incoming : SDFG :=
  {| nodes := [init; guard; body; exit];
     edges := edges canonical ++ [plain exit guard];
     start_state := init |}.

(** No edge leads back to the guard: the increment edge comes from a
    state [other] beside the loop, and the body is a dead end. *)
Definition other : state := 4%nat.
Definition no_backedge : SDFG :=
  {| nodes := [init; guard; body; exit; other];
     edges := [ assign init guard "i" (integer 0);
                plain init other;
                assign other guard "i" (add i (integer 1));
                branch guard body i_lt_10;
                branch guard exit (Not i_lt_10) ];
     start_state := init |}.

(** A loop that is run again and again: the guard is the start state, the
    body increments [i], and the state after the loop sets [i] back to 0
    and returns to the guard.  States: 0 is the guard, 1 the body, 2 the
    state after the loop. *)
Definition restarted : SDFG :=
  {| nodes := [0; 1; 2]%nat;
     edges := [ branch 0%nat 1%nat i_lt_10;
                branch 0%nat 2%nat (Not i_lt_10);
                assign 1%nat 0%nat "i" (add i (integer 1));
                assign 2%nat 0%nat "i" (integer 0) ];
     start_state := 0%nat |}.
Definition restarted_candidate : Candidate := fun p =>
  match p with
  | _loop_guard => 0%nat
  | _loop_begin => 1%nat
  | _exit_state => 2%nat
  end.

(** A body that is also entered from before the guard: state 0 branches
    to the guard and, past it, straight into the body. *)
Definition side_entry : SDFG :=
  {| nodes := [init; guard; body; exit];
     edges := edges canonical ++ [plain init body];
     start_state := init |}.

End examples.

(* ===================================================================== *)
(** ** The rest of DetectLoop: the patterns and the match label *)
(* ===================================================================== *)

(** A pattern graph of [DetectLoop.expressions]: its nodes and its edges,
    each edge with the [InterstateEdge()] it is added with. *)
Record Pattern : Type := {
  p_nodes : list pattern_node;
  p_edges : list (pattern_node * pattern_node * InterstateEdge)
}.

(** [sd.InterstateEdge()]: no assignment, and the condition that always
    holds. *)
Definition default_edge : InterstateEdge :=
  {| assignments := []; condition_sympy := BooleanTrue |}.

(** [DetectLoop.expressions]: the loop with one state, which has the edge
    back from the loop state to the guard, and the loop with several
    states, which has not. *)
Definition expressions : list Pattern :=
  [ {| p_nodes := [_loop_guard; _loop_begin; _exit_state];
       p_edges := [ (_loop_guard, _loop_begin, default_edge);
                    (_loop_guard, _exit_state, default_edge);
                    (_loop_begin, _loop_guard, default_edge) ] |};
    {| p_nodes := [_loop_guard; _loop_begin; _exit_state];
       p_edges := [ (_loop_guard, _loop_begin, default_edge);
                    (_loop_guard, _exit_state, default_edge) ] |} ].

(** Modelled from the spec: what a match of a pattern (found by the pattern
    matcher, not under src/) gives for certain: the candidate maps the
    pattern nodes to nodes of the graph, and every edge of the pattern lies
    on an edge of the graph. *)
Definition maps_edges (graph : SDFG) (candidate : Candidate) (pattern : Pattern) : Prop :=
  ∀ u v d, (u, v, d) ∈ p_edges pattern ->
    ∃ su sv, node graph (candidate u) = Return su ∧
             node graph (candidate v) = Return sv ∧
             edges_between graph su sv ≠ [].

(** [sep.join(l)] *)
Definition join (sep : string) (l : list string) : string :=
  match l with
  | [] => EmptyString
  | x :: l' => foldl (fun acc y => String.append acc (String.append sep y)) x l'
  end.

(** The double quote character. *)
Definition dquote : string := String (Ascii.ascii_of_nat 34) EmptyString.

(** [' (for loop over "%s")' % ind] *)
Definition for_loop_over (ind : string) : string :=
  String.append " (for loop over "
    (String.append dquote (String.append ind (String.append dquote ")"))).

(** [DetectLoop.match_to_str].  [label] gives the label of a state. *)
Definition match_to_str (label : state -> string) (graph : SDFG)
    (candidate : Candidate) : outcome string :=
  guard <- node graph (candidate _loop_guard) ;;
  begin <- node graph (candidate _loop_begin) ;;
  sexit <- node graph (candidate _exit_state) ;;
  in0 <- index (in_edges graph guard) 0 ;;
  ind <- index (keys (assignments (data in0))) 0 ;;
  Return (String.append (join " -> " (label <$> [guard; begin; sexit]))
                        (for_loop_over ind)).

(** The end that a comparison of class [op] with right-hand side [a] gives. *)
Definition end_of (op : relop) (a : expr) : expr :=
  match op with
  | StrictLessThan => sub a (integer 1)
  | LessThan => a
  | StrictGreaterThan => add a (integer 1)
  | GreaterThan => a
  end.

(** Replacing the expression of every assignment of a graph, the variables
    and everything else staying as they are. *)
Definition with_values (h : string -> expr -> expr) (e : Edge) : Edge :=
  {| src := src e; dst := dst e;
     data := {| assignments := (fun kv => (kv.1, h kv.1 kv.2)) <$> assignments (data e);
                condition_sympy := condition_sympy (data e) |} |}.

Definition map_edges (f : Edge -> Edge) (g : SDFG) : SDFG :=
  {| nodes := nodes g; edges := f <$> edges g; start_state := start_state g |}.

(** [g'] lists the edges of [g] in another order, the outgoing edges of
    every state keeping their order. *)
Definition relisted (g g' : SDFG) : Prop :=
  nodes g' = nodes g ∧
  start_state g' = start_state g ∧
  edges g' ≡ₚ edges g ∧
  ∀ n, out_edges g' n = out_edges g n.

Module loops.

Import examples.

(** The loop over [v] from [start], continued while [c] holds, with [v]
    set to [step] after each pass; the states are those of the examples. *)
Definition for_loop (v : string) (start : expr) (c : cond) (step : expr) : SDFG :=
  {| nodes := [init; guard; body; exit];
     edges := [ assign init guard v start;
                branch guard body c;
                branch guard exit (Not c);
                assign body guard v step ];
     start_state := init |}.

(** A loop that no path from the start state reaches: the canonical loop
    on the states 1, 2, 3, with the start state 0 left without edges. *)
Definition dead_loop : SDFG :=
  {| nodes := [init; guard; body; exit; other];
     edges := [ assign other guard "i" (integer 0);
                branch guard body i_lt_10;
                branch guard exit (Not i_lt_10);
                assign body guard "i" (add i (integer 1)) ];
     start_state := init |}.

(** The labels of the example states. *)
Definition label (s : state) : string :=
  match s with
  | 0%nat => "init"
  | 1%nat => "guard"
  | 2%nat => "body"
  | 3%nat => "exit"
  | _ => "state"
  end.

End loops.

(* ===================================================================== *)
(** ** The expression model *)
(* ===================================================================== *)

(** The increment [s + n] minus [s] simplifies to [n]. *)
Lemma sub_add_symbol (s : string) (n : Z) :
  sub (add (symbol s) (integer n)) (symbol s) = integer n.
Proof.
  unfold sub, add, symbol, integer. cbn [const terms]. f_equal; [lia|].
  apply map_eq. intros k. rewrite !lookup_merge, lookup_empty.
  destruct (decide (s = k)) as [->|Hk].
  - rewrite lookup_singleton_eq. reflexivity.
  - rewrite lookup_singleton_ne by exact Hk. reflexivity.
Qed.

(** A symbol occurs in itself and in no constant. *)
Lemma has_free_symbol_symbol (s : string) : has_free_symbol s (symbol s) = true.
Proof.
  apply bool_decide_eq_true. unfold free_symbols, symbol. cbn [terms].
  apply elem_of_dom. exists 1. apply lookup_singleton_eq.
Qed.

Lemma has_free_symbol_integer (s : string) (n : Z) :
  has_free_symbol s (integer n) = false.
Proof.
  apply bool_decide_eq_false. unfold free_symbols, integer. cbn [terms].
  rewrite dom_empty_L. apply not_elem_of_empty.
Qed.

(** Negating a comparison twice gives the comparison back, and a comparison
    is never its own negation. *)
Lemma Not_Rel_involutive (op : relop) (l r : expr) :
  Not (Not (Rel op l r)) = Rel op l r.
Proof. destruct op; reflexivity. Qed.

Lemma Not_Rel_differs (op : relop) (l r : expr) : Not (Rel op l r) ≠ Rel op l r.
Proof. destruct op; discriminate. Qed.

(** A template matches exactly the comparisons of its class on its
    left-hand side, and binds the wildcard to their right-hand side. *)
Lemma match_Some (c : cond) (op : relop) (lhs a : expr) :
  match_ c (Template op lhs) = Some a <-> c = Rel op lhs a.
Proof.
  unfold match_. cbn [t_op t_lhs]. split.
  - destruct c as [| |op' l r| |]; try discriminate.
    destruct (decide (op' = op)) as [->|]; [|discriminate].
    destruct (decide (l = lhs)) as [->|]; [|discriminate].
    intros [= ->]. reflexivity.
  - intros ->. rewrite !decide_True by reflexivity. reflexivity.
Qed.

(* ===================================================================== *)
(** ** Validation: the checks on the guard's edges *)
(* ===================================================================== *)

Lemma contains_singleton (x y : string) (e : expr) :
  contains [(y, e)] x = bool_decide (y = x).
Proof.
  unfold contains, keys. cbn.
  apply bool_decide_ext. rewrite list_elem_of_singleton. split; congruence.
Qed.

(** A test of the code that the hypotheses decide: [pass_check] takes the
    branch where the tested proposition fails. *)
Ltac pass_check :=
  match goal with
  | |- context [decide ?P] =>
      let H := fresh "Hbad" in
      destruct (decide P) as [H|_];
      [exfalso; first [congruence | lia | destruct H; congruence] |]
  end.

Section Validation.

Variables (graph sdfg : SDFG) (candidate : Candidate).
Variables (expr_index : nat) (strict : bool).
Variables (guard begin : state).

(** The candidate names two nodes of the graph. *)
Hypothesis Hguard : node graph (candidate _loop_guard) = Return guard.
Hypothesis Hbegin : node graph (candidate _loop_begin) = Return begin.

Let traversal : option (list state) :=
  sdutil.dfs_conditional sdfg [begin] (fun _ child => bool_decide (child ≠ guard)).
Let dominators : gmap state state :=
  dominance.immediate_dominators sdfg (start_state sdfg).

(** Once the edge checks pass, the result is that of the loop over the
    traversed nodes. *)
Lemma can_be_applied_traversal :
  passes_edge_checks graph guard ->
  can_be_applied graph candidate expr_index sdfg strict =
  match traversal with
  | None => Diverges
  | Some loop_nodes => check_loop_nodes graph dominators guard loop_nodes false
  end.
Proof.
  intros (in0 & in1 & out0 & out1 & x & e0 & e1 & Hin & Hout & Ha0 & Ha1 & Hb0 & Hb1 & Hc).
  unfold can_be_applied. rewrite Hguard, Hbegin. cbn [bind].
  rewrite Hin, Hout. cbn [length index lookup list_lookup bind].
  rewrite Ha0, Ha1.
  cbn [length keys fmap list_fmap fst index lookup list_lookup bind].
  do 2 pass_check.
  rewrite contains_singleton, bool_decide_eq_true_2 by reflexivity.
  cbn [negb existsb]. rewrite Hb0, Hb1. cbn [length].
  rewrite bool_decide_eq_false_2 by lia. cbn [orb].
  pass_check. reflexivity.
Qed.

(** C8: a guard whose number of incoming transitions, or of outgoing
    transitions, is not exactly 2 makes [can_be_applied] return False. *)
Theorem can_be_applied_degree :
  length (in_edges graph guard) ≠ 2%nat ∨ length (out_edges graph guard) ≠ 2%nat ->
  can_be_applied graph candidate expr_index sdfg strict = Return false.
Proof.
  intros Hdeg. unfold can_be_applied. rewrite Hguard, Hbegin. cbn [bind].
  destruct (decide (length (in_edges graph guard) ≠ 2%nat)) as [|Hin]; [reflexivity|].
  destruct (decide (length (out_edges graph guard) ≠ 2%nat)) as [|Hout]; [reflexivity|].
  tauto.
Qed.

(** C9: [can_be_applied] returns False when the two incoming transitions
    of the guard do not each carry exactly one assignment, and when each
    carries exactly one assignment but the two assign different
    variables. *)
Theorem can_be_applied_incoming_assignments (in0 in1 : Edge) :
  in_edges graph guard = [in0; in1] ->
  length (assignments (data in0)) ≠ 1%nat ∨
  length (assignments (data in1)) ≠ 1%nat ∨
  (∃ x e0 y e1, assignments (data in0) = [(x, e0)] ∧
                assignments (data in1) = [(y, e1)] ∧ x ≠ y) ->
  can_be_applied graph candidate expr_index sdfg strict = Return false.
Proof.
  intros Hin Hcase. unfold can_be_applied. rewrite Hguard, Hbegin. cbn [bind].
  rewrite Hin. cbn [length].
  pass_check.
  destruct (decide (length (out_edges graph guard) ≠ 2%nat)) as [|_]; [reflexivity|].
  cbn [index lookup list_lookup bind].
  destruct (decide (_ ∨ _)) as [|Hone]; [reflexivity|].
  destruct Hcase as [H0|[H1|(x & e0 & y & e1 & H0 & H1 & Hxy)]]; [tauto|tauto|].
  rewrite H0, H1.
  cbn [keys fmap list_fmap fst index lookup list_lookup bind].
  rewrite contains_singleton, bool_decide_eq_false_2 by congruence.
  reflexivity.
Qed.

(** C4: when the guard passes the degree checks and the checks on its
    incoming assignments, [can_be_applied] returns False unless both
    outgoing transitions carry no assignment and one outgoing condition is
    structurally the negation of the other. *)
Theorem can_be_applied_outgoing (in0 in1 out0 out1 : Edge) (x : string) (e0 e1 : expr) :
  in_edges graph guard = [in0; in1] ->
  out_edges graph guard = [out0; out1] ->
  assignments (data in0) = [(x, e0)] ->
  assignments (data in1) = [(x, e1)] ->
  ¬ (assignments (data out0) = [] ∧ assignments (data out1) = [] ∧
     (condition_sympy (data out0) = Not (condition_sympy (data out1)) ∨
      condition_sympy (data out1) = Not (condition_sympy (data out0)))) ->
  can_be_applied graph candidate expr_index sdfg strict = Return false.
Proof.
  intros Hin Hout Ha0 Ha1 Hneg.
  unfold can_be_applied. rewrite Hguard, Hbegin. cbn [bind].
  rewrite Hin, Hout. cbn [length index lookup list_lookup bind].
  rewrite Ha0, Ha1.
  cbn [length keys fmap list_fmap fst index lookup list_lookup bind].
  do 2 pass_check.
  rewrite contains_singleton, bool_decide_eq_true_2 by reflexivity.
  cbn [negb existsb].
  destruct (assignments (data out0)) as [|a0 l0]; cbn [length];
    [rewrite bool_decide_eq_false_2 by lia
    |rewrite bool_decide_eq_true_2 by lia; reflexivity].
  destruct (assignments (data out1)) as [|a1 l1]; cbn [length];
    [rewrite bool_decide_eq_false_2 by lia
    |rewrite bool_decide_eq_true_2 by lia; reflexivity].
  cbn [orb].
  destruct (decide (condition_sympy (data out0) ≠ Not (condition_sympy (data out1))))
    as [|Heq]; [reflexivity|].
  exfalso. apply Hneg. repeat split. left.
  destruct (decide (condition_sympy (data out0) = Not (condition_sympy (data out1))));
    [assumption | contradiction].
Qed.

End Validation.

(** C10: [can_be_applied] looks at the candidate only through its guard and
    loop-begin bindings; the exit-state binding, [expr_index] and [strict]
    do not change its result. *)
Theorem can_be_applied_ignores_exit_index_strict
    (graph sdfg : SDFG) (c1 c2 : Candidate) (index1 index2 : nat) (strict1 strict2 : bool) :
  c1 _loop_guard = c2 _loop_guard ->
  c1 _loop_begin = c2 _loop_begin ->
  can_be_applied graph c1 index1 sdfg strict1 =
  can_be_applied graph c2 index2 sdfg strict2.
Proof.
  intros Hguard Hbegin. unfold can_be_applied. rewrite Hguard, Hbegin. reflexivity.
Qed.

(* ===================================================================== *)
(** ** Validation: the loop over the traversed nodes *)
(* ===================================================================== *)

Lemma has_edge_to_false (graph : SDFG) (n guard : state) :
  has_edge_to graph n guard = false <->
  ∀ e, e ∈ out_edges graph n -> dst e ≠ guard.
Proof.
  unfold has_edge_to. induction (out_edges graph n) as [|e l IH]; cbn.
  - split; [intros _ e He; inversion He | reflexivity].
  - rewrite orb_false_iff, IH, bool_decide_eq_false. split.
    + intros [Hd Hl] e' He'. apply elem_of_cons in He' as [->|He']; auto.
    + intros H. split; [apply H; left | intros e' He'; apply H; right; exact He'].
Qed.

Section LoopNodes.

Variables (graph : SDFG) (dominators : gmap state state) (guard : state).

(** When the walk of every node ends at the guard, the loop runs to its
    end and the result is whether a back-edge was seen. *)
Lemma check_loop_nodes_all_inside (loop_nodes : list state) (found : bool) :
  (∀ n, n ∈ loop_nodes -> walk_from dominators guard n = Return true) ->
  check_loop_nodes graph dominators guard loop_nodes found =
  Return (found || existsb (fun n => has_edge_to graph n guard) loop_nodes).
Proof.
  revert found. induction loop_nodes as [|n l IH]; intros found Hall.
  - cbn. destruct found; reflexivity.
  - cbn [check_loop_nodes existsb]. fold (walk_from dominators guard n).
    rewrite (Hall n) by left. cbn [bind].
    rewrite IH by (intros m Hm; apply Hall; right; exact Hm).
    f_equal. destruct (has_edge_to graph n guard), found; reflexivity.
Qed.

(** The first node whose walk reaches the root ends the loop at once,
    whatever follows it in the traversal. *)
Lemma check_loop_nodes_rejects (before after : list state) (n : state) (found : bool) :
  (∀ m, m ∈ before -> walk_from dominators guard m = Return true) ->
  walk_from dominators guard n = Return false ->
  check_loop_nodes graph dominators guard (before ++ n :: after) found = Return false.
Proof.
  revert found. induction before as [|m l IH]; intros found Hall Hn.
  - cbn [app check_loop_nodes]. fold (walk_from dominators guard n). rewrite Hn. reflexivity.
  - cbn [app check_loop_nodes]. fold (walk_from dominators guard m).
    rewrite (Hall m) by left. cbn [bind].
    apply IH; [intros k Hk; apply Hall; right; exact Hk | exact Hn].
Qed.

(** A traversal whose first node is not accepted by its walk never makes
    the loop return True. *)
Lemma check_loop_nodes_first (n : state) (rest : list state) (found : bool) :
  walk_from dominators guard n ≠ Return true ->
  check_loop_nodes graph dominators guard (n :: rest) found ≠ Return true.
Proof.
  intros Hn. cbn [check_loop_nodes]. fold (walk_from dominators guard n).
  destruct (walk_from dominators guard n) as [[]| |]; cbn [bind]; congruence.
Qed.

(** The walk, step by step. *)
Lemma dominator_walk_step (fuel : nat) (n d : state) :
  dominators !! n = Some d -> n ≠ d -> n ≠ guard ->
  dominator_walk dominators guard (S fuel) n = dominator_walk dominators guard fuel d.
Proof.
  intros Hd Hnd Hng. cbn [dominator_walk]. rewrite Hd.
  rewrite decide_True by exact Hnd. rewrite decide_False by exact Hng. reflexivity.
Qed.

Lemma dominator_walk_at_guard (fuel : nat) (d : state) :
  dominators !! guard = Some d -> guard ≠ d ->
  dominator_walk dominators guard (S fuel) guard = Return true.
Proof.
  intros Hd Hgd. cbn [dominator_walk]. rewrite Hd.
  rewrite decide_True by exact Hgd. rewrite decide_True by reflexivity. reflexivity.
Qed.

Lemma dominator_walk_at_root (fuel : nat) (r : state) :
  dominators !! r = Some r ->
  dominator_walk dominators guard (S fuel) r = Return false.
Proof.
  intros Hr. cbn [dominator_walk]. rewrite Hr.
  rewrite decide_False by (intros H; apply H; reflexivity). reflexivity.
Qed.

Lemma dominator_walk_climbs (n : state) (k : nat) (m : state) (fuel : nat) :
  climbs dominators guard n k m ->
  dominator_walk dominators guard (k + fuel) n = dominator_walk dominators guard fuel m.
Proof.
  induction 1 as [n|n d k m Hn Hnd Hng _ IH]; [reflexivity|].
  cbn [Nat.add]. rewrite (dominator_walk_step _ n d) by assumption. exact IH.
Qed.

(** A guard met on the chain, below the root, accepts the node. *)
Lemma dominator_walk_accepts (n : state) (k : nat) (d : state) (fuel : nat) :
  climbs dominators guard n k guard -> dominators !! guard = Some d -> guard ≠ d ->
  (k < fuel)%nat ->
  dominator_walk dominators guard fuel n = Return true.
Proof.
  intros Hclimb Hd Hgd Hfuel.
  replace fuel with (k + S (fuel - S k))%nat by lia.
  rewrite (dominator_walk_climbs _ _ _ _ Hclimb).
  eapply dominator_walk_at_guard; eassumption.
Qed.

(** A root met on the chain before the guard rejects the node. *)
Lemma dominator_walk_rejects (n : state) (k : nat) (r : state) (fuel : nat) :
  climbs dominators guard n k r -> dominators !! r = Some r ->
  (k < fuel)%nat ->
  dominator_walk dominators guard fuel n = Return false.
Proof.
  intros Hclimb Hr Hfuel.
  replace fuel with (k + S (fuel - S k))%nat by lia.
  rewrite (dominator_walk_climbs _ _ _ _ Hclimb).
  apply dominator_walk_at_root. exact Hr.
Qed.

(** When the guard is itself the root of the dominator map, no walk ends
    at the guard: the loop condition fails on the guard before the test
    [dom == guard] is reached. *)
Lemma dominator_walk_guard_root (fuel : nat) (n : state) :
  dominators !! guard = Some guard ->
  dominator_walk dominators guard fuel n ≠ Return true.
Proof.
  intros Hroot. revert n. induction fuel as [|fuel IH]; intros n; cbn [dominator_walk].
  - discriminate.
  - destruct (dominators !! n) as [d|] eqn:Hn; [|discriminate].
    destruct (decide (n ≠ d)) as [Hnd|]; [|discriminate].
    destruct (decide (n = guard)) as [->|]; [|apply IH].
    congruence.
Qed.

End LoopNodes.

(* ===================================================================== *)
(** ** Facts about the collaborators that validation relies on *)
(* ===================================================================== *)

Lemma sweep_iter_mono (G : SDFG) (avoid : option state) (k : nat) (R : gset state) :
  R ⊆ Nat.iter k (dominance.sweep G avoid) R.
Proof.
  induction k as [|k IH]; cbn [Nat.iter]; [reflexivity|].
  unfold dominance.sweep at 1. set_solver.
Qed.

Lemma start_reachable (G : SDFG) (start : state) :
  start ∈ dominance.reachable G start.
Proof.
  unfold dominance.reachable, dominance.reachable_avoiding.
  rewrite decide_False by discriminate.
  apply sweep_iter_mono. set_solver.
Qed.

Lemma immediate_dominators_lookup (G : SDFG) (start n d : state) :
  dominance.immediate_dominators G start !! n = Some d <->
  n ∈ dominance.reachable G start ∧ d = dominance.idom G start n.
Proof.
  unfold dominance.immediate_dominators. rewrite lookup_set_to_map.
  - split.
    + intros (y & Hy & Heq). injection Heq as -> ->. auto.
    + intros [Hn ->]. exists n. auto.
  - intros y y' _ _ Heq. exact Heq.
Qed.

(** The start node maps to itself. *)
Lemma immediate_dominators_start (G : SDFG) (start : state) :
  dominance.immediate_dominators G start !! start = Some start.
Proof.
  apply immediate_dominators_lookup. split; [apply start_reachable|].
  unfold dominance.idom. rewrite decide_True by reflexivity. reflexivity.
Qed.

(** The traversal only ever appends to what it has produced. *)
Lemma dfs_loop_extends (G : SDFG) (condition : state -> state -> bool) (fuel : nat) :
  ∀ stack visited out visited' out',
    sdutil.dfs_loop G condition fuel stack visited out = Some (visited', out') ->
    ∃ l, out' = out ++ l.
Proof.
  induction fuel as [|fuel IH]; intros stack visited out visited' out'; cbn [sdutil.dfs_loop];
    [discriminate|].
  destruct stack as [|[parent [|child children]] stack'].
  - intros [= <- <-]. exists []. rewrite app_nil_r. reflexivity.
  - apply IH.
  - destruct (decide (child ∈ visited)); [apply IH|].
    destruct (condition parent child); intros H; apply IH in H as [l ->];
      exists (child :: l); rewrite <- app_assoc; reflexivity.
Qed.

(** The traversal from a single source produces the source first. *)
Lemma dfs_conditional_source_first (G : SDFG) (source : state)
    (condition : state -> state -> bool) (loop_nodes : list state) :
  sdutil.dfs_conditional G [source] condition = Some loop_nodes ->
  ∃ rest, loop_nodes = source :: rest.
Proof.
  unfold sdutil.dfs_conditional. cbn [sdutil.dfs_sources].
  rewrite decide_False by set_solver.
  destruct (sdutil.dfs_loop _ _ _ _ _ _) as [[visited' out']|] eqn:Hloop; [|discriminate].
  intros [= <-]. apply dfs_loop_extends in Hloop as [l ->]. exists l. reflexivity.
Qed.

(* ===================================================================== *)
(** ** Validation: containment and the back-edge *)
(* ===================================================================== *)

Section Containment.

Variables (graph sdfg : SDFG) (candidate : Candidate).
Variables (expr_index : nat) (strict : bool).
Variables (guard begin : state).

Hypothesis Hguard : node graph (candidate _loop_guard) = Return guard.
Hypothesis Hbegin : node graph (candidate _loop_begin) = Return begin.

Let dominators : gmap state state :=
  dominance.immediate_dominators sdfg (start_state sdfg).

(** When every check on the edges passes and every traversed node is
    accepted by its walk, the result is exactly whether some traversed
    node has an edge to the guard. *)
Lemma can_be_applied_all_inside (loop_nodes : list state) :
  passes_edge_checks graph guard ->
  sdutil.dfs_conditional sdfg [begin] (fun _ child => bool_decide (child ≠ guard))
    = Some loop_nodes ->
  (∀ n, n ∈ loop_nodes -> walk_from dominators guard n = Return true) ->
  can_be_applied graph candidate expr_index sdfg strict =
  Return (existsb (fun n => has_edge_to graph n guard) loop_nodes).
Proof.
  intros Hedges Hdfs Hinside.
  rewrite (can_be_applied_traversal _ _ _ _ _ guard begin) by assumption.
  rewrite Hdfs. apply check_loop_nodes_all_inside. exact Hinside.
Qed.

(** C7: a candidate that passes the checks on the edges and the walk of
    every traversed node is still refused when no traversed node has a
    transition to the guard. *)
Theorem can_be_applied_needs_backedge (loop_nodes : list state) :
  passes_edge_checks graph guard ->
  sdutil.dfs_conditional sdfg [begin] (fun _ child => bool_decide (child ≠ guard))
    = Some loop_nodes ->
  (∀ n, n ∈ loop_nodes -> walk_from dominators guard n = Return true) ->
  (∀ n e, n ∈ loop_nodes -> e ∈ out_edges graph n -> dst e ≠ guard) ->
  can_be_applied graph candidate expr_index sdfg strict = Return false.
Proof.
  intros Hedges Hdfs Hinside Hnone.
  rewrite (can_be_applied_all_inside loop_nodes) by assumption. f_equal.
  apply not_true_is_false. intros Hex.
  apply existsb_exists in Hex as (n & Hn & Hedge).
  apply list_elem_of_In in Hn.
  assert (has_edge_to graph n guard = false) as Hno
    by (apply has_edge_to_false; intros e He; exact (Hnone n e Hn He)).
  congruence.
Qed.

(** A guard that is the start state is the root of the dominator map, so
    no walk is left through [break] and no candidate with that guard is
    accepted, although the guard then dominates every node. *)
Lemma can_be_applied_guard_is_start :
  start_state sdfg = guard ->
  can_be_applied graph candidate expr_index sdfg strict ≠ Return true.
Proof.
  intros Hstart. unfold can_be_applied. rewrite Hguard, Hbegin. cbn [bind].
  repeat match goal with
         | |- context [decide ?P] => destruct (decide P)
         | |- (if ?b then _ else _) ≠ _ => destruct b
         | |- bind ?m _ ≠ _ => destruct m; cbn [bind]
         end; try discriminate.
  destruct (sdutil.dfs_conditional _ _ _) as [loop_nodes|] eqn:Hdfs; [|discriminate].
  apply dfs_conditional_source_first in Hdfs as [rest ->].
  apply check_loop_nodes_first, dominator_walk_guard_root.
  rewrite Hstart. apply immediate_dominators_start.
Qed.

End Containment.

(** A loop that returns True has accepted every node and seen a back-edge. *)
Lemma check_loop_nodes_true (graph : SDFG) (dominators : gmap state state)
    (guard : state) (loop_nodes : list state) :
  ∀ found,
    check_loop_nodes graph dominators guard loop_nodes found = Return true ->
    (∀ n, n ∈ loop_nodes -> walk_from dominators guard n = Return true) ∧
    (found = true ∨ ∃ n, n ∈ loop_nodes ∧ has_edge_to graph n guard = true).
Proof.
  induction loop_nodes as [|n l IH]; intros found; cbn [check_loop_nodes].
  - destruct found; [|discriminate]. intros _. split; [|left; reflexivity].
    intros n Hn. inversion Hn.
  - fold (walk_from dominators guard n).
    destruct (walk_from dominators guard n) as [[]| |] eqn:Hwalk; cbn [bind];
      try discriminate.
    intros Hrest. apply IH in Hrest as [Hall Hfound]. split.
    + intros m Hm. apply elem_of_cons in Hm as [->|Hm]; auto.
    + destruct (has_edge_to graph n guard) eqn:Hedge.
      * right. exists n. split; [left | exact Hedge].
      * destruct Hfound as [->|(m & Hm & Hedge')]; [left; reflexivity|].
        right. exists m. split; [right; exact Hm | exact Hedge'].
Qed.

(** What an accepted candidate looks like: the guard passes every check on
    its edges, every traversed node is accepted by its walk, and some
    traversed node has an edge to the guard. *)
Lemma can_be_applied_true (graph sdfg : SDFG) (candidate : Candidate)
    (expr_index : nat) (strict : bool) :
  can_be_applied graph candidate expr_index sdfg strict = Return true ->
  ∃ guard begin loop_nodes,
    node graph (candidate _loop_guard) = Return guard ∧
    node graph (candidate _loop_begin) = Return begin ∧
    passes_edge_checks graph guard ∧
    sdutil.dfs_conditional sdfg [begin] (fun _ child => bool_decide (child ≠ guard))
      = Some loop_nodes ∧
    (∀ n, n ∈ loop_nodes ->
          walk_from (dominance.immediate_dominators sdfg (start_state sdfg)) guard n
          = Return true) ∧
    (∃ n, n ∈ loop_nodes ∧ has_edge_to graph n guard = true).
Proof.
  unfold can_be_applied.
  destruct (node graph (candidate _loop_guard)) as [guard| |]; cbn [bind]; try discriminate.
  destruct (node graph (candidate _loop_begin)) as [begin| |]; cbn [bind]; try discriminate.
  destruct (decide (length (in_edges graph guard) ≠ 2%nat)) as [|Hin]; [discriminate|].
  destruct (decide (length (out_edges graph guard) ≠ 2%nat)) as [|Hout]; [discriminate|].
  destruct (in_edges graph guard) as [|in0 [|in1 [|]]] eqn:Ein; cbn in Hin; try lia.
  destruct (out_edges graph guard) as [|out0 [|out1 [|]]] eqn:Eout; cbn in Hout; try lia.
  cbn [index lookup list_lookup bind].
  destruct (decide (_ ∨ _)) as [|Hone]; [discriminate|].
  destruct (assignments (data in0)) as [|[x e0] [|]] eqn:E0; cbn in Hone; try lia.
  destruct (assignments (data in1)) as [|[y e1] [|]] eqn:E1; cbn in Hone; try lia.
  cbn [keys fmap list_fmap fst index lookup list_lookup bind].
  rewrite contains_singleton.
  destruct (bool_decide (y = x)) eqn:Hxy; cbn [negb]; [|discriminate].
  apply bool_decide_eq_true in Hxy as ->.
  cbn [existsb].
  destruct (assignments (data out0)) as [|] eqn:F0; cbn [length];
    [rewrite bool_decide_eq_false_2 by lia
    |rewrite bool_decide_eq_true_2 by lia; discriminate].
  destruct (assignments (data out1)) as [|] eqn:F1; cbn [length];
    [rewrite bool_decide_eq_false_2 by lia
    |rewrite bool_decide_eq_true_2 by lia; discriminate].
  cbn [orb].
  destruct (decide (condition_sympy (data out0) ≠ Not (condition_sympy (data out1))))
    as [|Hneg]; [discriminate|].
  destruct (sdutil.dfs_conditional _ _ _) as [loop_nodes|] eqn:Hdfs; [|discriminate].
  intros Hloop. apply check_loop_nodes_true in Hloop as [Hall [Hfound|Hfound]];
    [discriminate|].
  exists guard, begin, loop_nodes. repeat split; try assumption; try reflexivity.
  exists in0, in1, out0, out1, x, e0, e1. repeat split; try assumption; try reflexivity.
  destruct (decide (condition_sympy (data out0) = Not (condition_sympy (data out1))));
    [assumption | contradiction].
Qed.

(* ===================================================================== *)
(** ** Extraction of the loop range *)
(* ===================================================================== *)

(** The template tests, one by one. *)
Lemma find_end_lt (itersym : expr) (c : cond) (a : expr) :
  match_ c (Template StrictLessThan itersym) = Some a ->
  find_end itersym c = Some (sub a (integer 1)).
Proof. intros H. unfold find_end. rewrite H. reflexivity. Qed.

Lemma find_end_le (itersym : expr) (c : cond) (a : expr) :
  match_ c (Template StrictLessThan itersym) = None ->
  match_ c (Template LessThan itersym) = Some a ->
  find_end itersym c = Some a.
Proof. intros H1 H2. unfold find_end. rewrite H1, H2. reflexivity. Qed.

Lemma find_end_gt (itersym : expr) (c : cond) (a : expr) :
  match_ c (Template StrictLessThan itersym) = None ->
  match_ c (Template LessThan itersym) = None ->
  match_ c (Template StrictGreaterThan itersym) = Some a ->
  find_end itersym c = Some (add a (integer 1)).
Proof. intros H1 H2 H3. unfold find_end. rewrite H1, H2, H3. reflexivity. Qed.

Lemma find_end_ge (itersym : expr) (c : cond) (a : expr) :
  match_ c (Template StrictLessThan itersym) = None ->
  match_ c (Template LessThan itersym) = None ->
  match_ c (Template StrictGreaterThan itersym) = None ->
  match_ c (Template GreaterThan itersym) = Some a ->
  find_end itersym c = Some a.
Proof. intros H1 H2 H3 H4. unfold find_end. rewrite H1, H2, H3, H4. reflexivity. Qed.

Lemma find_end_none (itersym : expr) (c : cond) :
  match_ c (Template StrictLessThan itersym) = None ->
  match_ c (Template LessThan itersym) = None ->
  match_ c (Template StrictGreaterThan itersym) = None ->
  match_ c (Template GreaterThan itersym) = None ->
  find_end itersym c = None.
Proof. intros H1 H2 H3 H4. unfold find_end. rewrite H1, H2, H3, H4. reflexivity. Qed.

Lemma getitem_first (x : string) (e : expr) (d : list (string * expr)) :
  getitem ((x, e) :: d) x = Return e.
Proof. cbn. rewrite decide_True by reflexivity. reflexivity. Qed.

Section Extraction.

Variables (sdfg : SDFG) (guard entry : state).
Variables (in0 in1 : Edge) (more_in : list Edge).
Variables (condition_edge : Edge) (more_between : list Edge).
Variables (itervar : string) (e0 e1 : expr) (more0 : list (string * expr)).

(** The guard has (at least) two incoming edges and an edge to [entry];
    the first variable assigned on the first incoming edge is [itervar],
    to [e0], and the second incoming edge assigns [e1] to it. *)
Hypothesis Hin : in_edges sdfg guard = in0 :: in1 :: more_in.
Hypothesis Hbetween : edges_between sdfg guard entry = condition_edge :: more_between.
Hypothesis Hfirst : assignments (data in0) = (itervar, e0) :: more0.
Hypothesis Hsecond : getitem (assignments (data in1)) itervar = Return e1.

Let itersym : expr := symbol itervar.
Let end_ : option expr := find_end itersym (condition_sympy (data condition_edge)).

(** The result by the two membership tests. *)
Lemma find_for_loop_classified :
  find_for_loop sdfg guard entry =
  Return
    match has_free_symbol itervar e0, has_free_symbol itervar e1 with
    | true, false => loop_result itervar e1 (sub e0 itersym) end_
    | false, true => loop_result itervar e0 (sub e1 itersym) end_
    | _, _ => None
    end.
Proof.
  unfold find_for_loop. rewrite Hin, Hbetween.
  cbn [index lookup list_lookup bind]. rewrite Hfirst.
  cbn [keys fmap list_fmap fst index lookup list_lookup bind].
  rewrite getitem_first, Hsecond. cbn [bind].
  subst end_ itersym. unfold loop_result.
  destruct (has_free_symbol itervar e0), (has_free_symbol itervar e1);
    cbn [bind negb]; try reflexivity;
    destruct (find_end _ _); reflexivity.
Qed.

(** C6: when both incoming expressions contain the iteration variable, or
    neither does, the result is None; otherwise the edge whose expression
    contains it gives the stride (the expression minus the variable) and
    the other edge gives the start (its expression as it is). *)
Theorem find_for_loop_start_stride :
  (has_free_symbol itervar e0 = has_free_symbol itervar e1 ->
   find_for_loop sdfg guard entry = Return None) ∧
  (has_free_symbol itervar e0 = true -> has_free_symbol itervar e1 = false ->
   find_for_loop sdfg guard entry =
   Return (loop_result itervar e1 (sub e0 (symbol itervar)) end_)) ∧
  (has_free_symbol itervar e0 = false -> has_free_symbol itervar e1 = true ->
   find_for_loop sdfg guard entry =
   Return (loop_result itervar e0 (sub e1 (symbol itervar)) end_)).
Proof.
  rewrite find_for_loop_classified. repeat split.
  - intros ->. destruct (has_free_symbol itervar e1); reflexivity.
  - intros -> ->. reflexivity.
  - intros -> ->. reflexivity.
Qed.

(** Start and stride once exactly one expression contains the variable. *)
Let start : expr := if has_free_symbol itervar e0 then e1 else e0.
Let stride : expr := sub (if has_free_symbol itervar e0 then e0 else e1) itersym.
Let condition : cond := condition_sympy (data condition_edge).

(** C3: the end comes from the first of the four templates, in the order
    [<], [<=], [>], [>=], that the condition of the guard-to-entry edge
    matches: [a - 1], [a], [a + 1], [a]; when none matches the result is
    None.  Nothing relates the template to the stride. *)
Theorem find_for_loop_end :
  has_free_symbol itervar e0 ≠ has_free_symbol itervar e1 ->
  (∀ a, match_ condition (Template StrictLessThan itersym) = Some a ->
        find_for_loop sdfg guard entry =
        Return (Some (itervar, (start, sub a (integer 1), stride)))) ∧
  (∀ a, match_ condition (Template StrictLessThan itersym) = None ->
        match_ condition (Template LessThan itersym) = Some a ->
        find_for_loop sdfg guard entry =
        Return (Some (itervar, (start, a, stride)))) ∧
  (∀ a, match_ condition (Template StrictLessThan itersym) = None ->
        match_ condition (Template LessThan itersym) = None ->
        match_ condition (Template StrictGreaterThan itersym) = Some a ->
        find_for_loop sdfg guard entry =
        Return (Some (itervar, (start, add a (integer 1), stride)))) ∧
  (∀ a, match_ condition (Template StrictLessThan itersym) = None ->
        match_ condition (Template LessThan itersym) = None ->
        match_ condition (Template StrictGreaterThan itersym) = None ->
        match_ condition (Template GreaterThan itersym) = Some a ->
        find_for_loop sdfg guard entry =
        Return (Some (itervar, (start, a, stride)))) ∧
  (match_ condition (Template StrictLessThan itersym) = None ->
   match_ condition (Template LessThan itersym) = None ->
   match_ condition (Template StrictGreaterThan itersym) = None ->
   match_ condition (Template GreaterThan itersym) = None ->
   find_for_loop sdfg guard entry = Return None).
Proof.
  intros Hone.
  assert (find_for_loop sdfg guard entry = Return (loop_result itervar start stride end_))
    as ->.
  { rewrite find_for_loop_classified. subst start stride.
    destruct (has_free_symbol itervar e0), (has_free_symbol itervar e1);
      congruence. }
  subst end_ condition. repeat split.
  - intros a H1. rewrite (find_end_lt _ _ a) by assumption. reflexivity.
  - intros a H1 H2. rewrite (find_end_le _ _ a) by assumption. reflexivity.
  - intros a H1 H2 H3. rewrite (find_end_gt _ _ a) by assumption. reflexivity.
  - intros a H1 H2 H3 H4. rewrite (find_end_ge _ _ a) by assumption. reflexivity.
  - intros H1 H2 H3 H4. rewrite find_end_none by assumption.
    destruct (has_free_symbol itervar e0), (has_free_symbol itervar e1); reflexivity.
Qed.

End Extraction.

(* ===================================================================== *)
(** ** Extraction and the order of the incoming edges *)
(* ===================================================================== *)

Lemma head_keys_nil (d : list (string * expr)) : head (keys d) = None -> d = [].
Proof. destruct d; [reflexivity | discriminate]. Qed.

(** When the two incoming edges list the same variable first, the outcome
    of [find_for_loop] is the same for both listing orders. *)
Lemma find_for_loop_swap (g g' : SDFG) (guard entry : state)
    (in0 in1 : Edge) (more more' : list Edge) :
  in_edges g guard = in0 :: in1 :: more ->
  in_edges g' guard = in1 :: in0 :: more' ->
  edges_between g' guard entry = edges_between g guard entry ->
  head (keys (assignments (data in0))) = head (keys (assignments (data in1))) ->
  find_for_loop g' guard entry = find_for_loop g guard entry.
Proof.
  intros Hin Hin' Hbetween Hhead.
  destruct (edges_between g guard entry) as [|ce others] eqn:Hce.
  { unfold find_for_loop. rewrite Hbetween, Hce. reflexivity. }
  destruct (assignments (data in0)) as [|[x e0] more0] eqn:H0.
  { symmetry in Hhead. apply head_keys_nil in Hhead.
    unfold find_for_loop. rewrite Hbetween, Hce, Hin, Hin'.
    cbn [index lookup list_lookup bind]. rewrite H0, Hhead. reflexivity. }
  destruct (assignments (data in1)) as [|[y e1] more1] eqn:H1; [discriminate|].
  cbn in Hhead. injection Hhead as <-.
  rewrite (find_for_loop_classified g guard entry in0 in1 more ce others x e0 e1 more0)
    by (try assumption; rewrite H1; apply getitem_first).
  rewrite (find_for_loop_classified g' guard entry in1 in0 more' ce others x e1 e0 more1)
    by (try assumption; rewrite H0; apply getitem_first).
  destruct (has_free_symbol x e0), (has_free_symbol x e1); reflexivity.
Qed.

(** C5, as amended: on a graph where [find_for_loop] succeeds and the two
    incoming transitions of the guard list the same variable first (as they
    do when each carries exactly one assignment), listing the two incoming
    transitions in the other order gives the same iteration variable, start,
    end and stride. *)
Theorem find_for_loop_order_independent (g g' : SDFG) (guard entry : state)
    (in0 in1 : Edge) (more : list Edge) (result : string * Range) :
  in_edges g guard = in0 :: in1 :: more ->
  in_edges g' guard = in1 :: in0 :: more ->
  edges_between g' guard entry = edges_between g guard entry ->
  head (keys (assignments (data in0))) = head (keys (assignments (data in1))) ->
  find_for_loop g guard entry = Return (Some result) ->
  find_for_loop g' guard entry = Return (Some result).
Proof.
  intros Hin Hin' Hbetween Hhead Hresult.
  rewrite <- Hresult. eapply find_for_loop_swap; eassumption.
Qed.

(* ===================================================================== *)
(** ** The example graphs *)
(* ===================================================================== *)

Import examples.

(** C1: on the canonical loop, validation returns True and extraction
    returns the iteration variable "i" with start 0, inclusive end 9 and
    stride 1. *)
Theorem canonical_loop_detected :
  (∀ (expr_index : nat) (strict : bool),
     can_be_applied canonical candidate expr_index canonical strict = Return true) ∧
  find_for_loop canonical guard body =
  Return (Some ("i", (integer 0, integer 9, integer 1))).
Proof.
  split; [intros expr_index strict|]; vm_compute; reflexivity.
Qed.

(** The same with the increment edge listed first. *)
Lemma canonical_increment_first_detected :
  can_be_applied canonical_increment_first candidate 0 canonical_increment_first false
  = Return true ∧
  find_for_loop canonical_increment_first guard body =
  Return (Some ("i", (integer 0, integer 9, integer 1))).
Proof. split; vm_compute; reflexivity. Qed.

(** C2, on the restarted loop: the guard is the start state, so it is the
    immediate dominator of the body and of the state after the loop and
    dominates every traversed node; the walk from the body still ends in
    the [else] branch and validation returns False. *)
Theorem guard_as_start_state_rejected :
  let dominators := dominance.immediate_dominators restarted (start_state restarted) in
  passes_edge_checks restarted 0%nat ∧
  dominators !! 1%nat = Some 0%nat ∧
  dominators !! 2%nat = Some 0%nat ∧
  dominators !! 0%nat = Some 0%nat ∧
  walk_from dominators 0%nat 1%nat = Return false ∧
  can_be_applied restarted restarted_candidate 0 restarted false = Return false.
Proof.
  cbn zeta. split.
  { exists (assign 1%nat 0%nat "i" (add i (integer 1))), (assign 2%nat 0%nat "i" (integer 0)),
           (branch 0%nat 1%nat i_lt_10), (branch 0%nat 2%nat (Not i_lt_10)),
           "i", (add i (integer 1)), (integer 0).
    repeat split; vm_compute; reflexivity. }
  repeat split; vm_compute; reflexivity.
Qed.

(** A body entered from before the guard is not dominated by the guard and
    the candidate is refused, all edge checks passing. *)
Lemma side_entry_rejected :
  passes_edge_checks side_entry guard ∧
  can_be_applied side_entry candidate 0 side_entry false = Return false.
Proof.
  split; [|vm_compute; reflexivity].
  exists (assign init guard "i" (integer 0)), (assign body guard "i" (add i (integer 1))),
         (branch guard body i_lt_10), (branch guard exit (Not i_lt_10)),
         "i", (integer 0), (add i (integer 1)).
  repeat split; vm_compute; reflexivity.
Qed.

(** C5, as stated, fails: with an initialization edge that assigns [j]
    before [i], extraction succeeds when the increment edge is listed first
    and raises KeyError when the two incoming edges are listed in the other
    order. *)
Lemma find_for_loop_order_dependent :
  in_edges two_assignments guard
    = [assign body guard "i" (add i (integer 1)); init_two init guard] ∧
  in_edges two_assignments_swapped guard
    = [init_two init guard; assign body guard "i" (add i (integer 1))] ∧
  edges_between two_assignments_swapped guard body
    = edges_between two_assignments guard body ∧
  find_for_loop two_assignments guard body
    = Return (Some ("i", (integer 0, integer 9, integer 1))) ∧
  find_for_loop two_assignments_swapped guard body = Raise KeyError ∧
  find_for_loop two_assignments_swapped guard body
    ≠ find_for_loop two_assignments guard body.
Proof.
  repeat split; try (vm_compute; reflexivity).
  vm_compute. discriminate.
Qed.

(* ===================================================================== *)
(** ** The theorems at the example graphs *)
(* ===================================================================== *)

(** A guard with three incoming edges. *)
Lemma can_be_applied_degree_witness :
  length (in_edges three_incoming guard) = 3%nat ∧
  can_be_applied three_incoming candidate 0 three_incoming false = Return false.
Proof.
  split; [reflexivity|].
  apply (can_be_applied_degree three_incoming three_incoming candidate 0 false guard body);
    [reflexivity | reflexivity | left; vm_compute; discriminate].
Defined.

(** Incoming edges that assign [j] and [i]. *)
Lemma can_be_applied_incoming_assignments_witness :
  can_be_applied different_variables candidate 0 different_variables false = Return false.
Proof.
  apply (can_be_applied_incoming_assignments different_variables different_variables
           candidate 0 false guard body eq_refl eq_refl
           (assign init guard "j" (integer 0)) (assign body guard "i" (add i (integer 1))));
    [reflexivity |].
  right; right. exists "j", (integer 0), "i", (add i (integer 1)).
  repeat split. discriminate.
Defined.

(** The outgoing conditions [i < 10] and [i > 10]: neither is the negation
    of the other, and the candidate is refused. *)
Lemma can_be_applied_outgoing_witness :
  i_lt_10 ≠ Not i_gt_10 ∧ i_gt_10 ≠ Not i_lt_10 ∧
  can_be_applied not_negated candidate 0 not_negated false = Return false.
Proof.
  split; [discriminate|]. split; [discriminate|].
  apply (can_be_applied_outgoing not_negated not_negated candidate 0 false guard body
           eq_refl eq_refl
           (assign init guard "i" (integer 0)) (assign body guard "i" (add i (integer 1)))
           (branch guard body i_lt_10) (branch guard exit i_gt_10)
           "i" (integer 0) (add i (integer 1)));
    [reflexivity | reflexivity | reflexivity | reflexivity |].
  intros (_ & _ & [H|H]); discriminate H.
Defined.

(** A loop whose body has no edge back to the guard. *)
Lemma can_be_applied_needs_backedge_witness :
  can_be_applied no_backedge candidate 0 no_backedge false = Return false.
Proof.
  apply (can_be_applied_needs_backedge no_backedge no_backedge candidate 0 false
           guard body eq_refl eq_refl [body]).
  - exists (assign init guard "i" (integer 0)), (assign other guard "i" (add i (integer 1))),
           (branch guard body i_lt_10), (branch guard exit (Not i_lt_10)),
           "i", (integer 0), (add i (integer 1)).
    repeat split; vm_compute; reflexivity.
  - vm_compute. reflexivity.
  - intros n Hn. apply list_elem_of_singleton in Hn as ->. vm_compute. reflexivity.
  - intros n e Hn. apply list_elem_of_singleton in Hn as ->.
    vm_compute. intros He. inversion He.
Defined.

(** Two calls that differ in the exit binding, the template index and the
    strict flag. *)
Lemma can_be_applied_ignores_exit_index_strict_witness :
  can_be_applied canonical candidate 0 canonical false =
  can_be_applied canonical
    (fun p => match p with _exit_state => 0%nat | _ => candidate p end) 1 canonical true.
Proof.
  apply can_be_applied_ignores_exit_index_strict; reflexivity.
Defined.

(** Both expressions contain [i]; and the canonical loop, where only the
    second does. *)
Lemma find_for_loop_start_stride_witness :
  find_for_loop both_contain guard body = Return None ∧
  find_for_loop canonical guard body =
  Return (loop_result "i" (integer 0) (sub (add i (integer 1)) (symbol "i"))
            (find_end (symbol "i") i_lt_10)).
Proof.
  split.
  - apply (find_for_loop_start_stride both_contain guard body
             (assign init guard "i" (sub i (integer 1)))
             (assign body guard "i" (add i (integer 1))) []
             (branch guard body i_lt_10) []
             "i" (sub i (integer 1)) (add i (integer 1)) []
             eq_refl eq_refl eq_refl eq_refl).
    reflexivity.
  - apply (find_for_loop_start_stride canonical guard body
             (assign init guard "i" (integer 0))
             (assign body guard "i" (add i (integer 1))) []
             (branch guard body i_lt_10) []
             "i" (integer 0) (add i (integer 1)) []
             eq_refl eq_refl eq_refl eq_refl); reflexivity.
Defined.

(** The four condition shapes on the same loop, a condition of no supported
    shape, and a descending loop. *)
Lemma find_for_loop_end_witness :
  find_for_loop canonical guard body
    = Return (Some ("i", (integer 0, integer 9, integer 1))) ∧
  find_for_loop (loop_with i_le_10 (Not i_le_10)) guard body
    = Return (Some ("i", (integer 0, integer 10, integer 1))) ∧
  find_for_loop (loop_with i_gt_0 (Not i_gt_0)) guard body
    = Return (Some ("i", (integer 0, integer 1, integer 1))) ∧
  find_for_loop (loop_with i_ge_0 (Not i_ge_0)) guard body
    = Return (Some ("i", (integer 0, integer 0, integer 1))) ∧
  find_for_loop (loop_with ten_gt_i (Not ten_gt_i)) guard body = Return None ∧
  find_for_loop descending guard body
    = Return (Some ("i", (integer 10, integer 1, integer (-1)))).
Proof.
  pose proof (fun c : cond =>
    find_for_loop_end (loop_with c (Not c)) guard body
      (assign init guard "i" (integer 0))
      (assign body guard "i" (add i (integer 1))) []
      (branch guard body c) []
      "i" (integer 0) (add i (integer 1)) []
      eq_refl eq_refl eq_refl eq_refl) as H.
  assert (has_free_symbol "i" (integer 0) ≠ has_free_symbol "i" (add i (integer 1)))
    as Hone by (vm_compute; discriminate).
  refine (conj _ (conj _ (conj _ (conj _ (conj _ _))))).
  - destruct (H i_lt_10 Hone) as (H1 & _). apply (H1 (integer 10)). reflexivity.
  - destruct (H i_le_10 Hone) as (_ & H2 & _). apply (H2 (integer 10)); reflexivity.
  - destruct (H i_gt_0 Hone) as (_ & _ & H3 & _). apply (H3 (integer 0)); reflexivity.
  - destruct (H i_ge_0 Hone) as (_ & _ & _ & H4 & _). apply (H4 (integer 0)); reflexivity.
  - destruct (H ten_gt_i Hone) as (_ & _ & _ & _ & H5). apply H5; reflexivity.
  - assert (has_free_symbol "i" (integer 10) ≠ has_free_symbol "i" (sub i (integer 1)))
      as Hdown by (vm_compute; discriminate).
    destruct (find_for_loop_end descending guard body
                (assign init guard "i" (integer 10))
                (assign body guard "i" (sub i (integer 1))) []
                (branch guard body i_gt_0) []
                "i" (integer 10) (sub i (integer 1)) []
                eq_refl eq_refl eq_refl eq_refl Hdown) as (_ & _ & H3 & _).
    apply (H3 (integer 0)); reflexivity.
Defined.

(** The canonical loop with its incoming edges in either order. *)
Lemma find_for_loop_order_independent_witness :
  find_for_loop canonical_increment_first guard body =
  Return (Some ("i", (integer 0, integer 9, integer 1))).
Proof.
  apply (find_for_loop_order_independent canonical canonical_increment_first guard body
           (assign init guard "i" (integer 0))
           (assign body guard "i" (add i (integer 1))) []);
    reflexivity.
Defined.

(* ===================================================================== *)
(** ** Termination: the traversal and the walks always end *)
(* ===================================================================== *)

(** Visiting a node takes it out of the nodes still to be visited. *)
Lemma size_visit (universe visited : gset state) (c : state) :
  c ∈ universe -> c ∉ visited ->
  S (size (universe ∖ ({[ c ]} ∪ visited))) = size (universe ∖ visited).
Proof.
  intros Hc Hv.
  replace (universe ∖ visited) with ({[ c ]} ∪ universe ∖ ({[ c ]} ∪ visited)).
  - rewrite (size_union {[ c ]} (universe ∖ ({[ c ]} ∪ visited))).
    + rewrite size_singleton. reflexivity.
    + intros x. set_unfold. tauto.
  - apply set_eq. intros x. set_unfold.
    destruct (decide (x = c)) as [->|]; tauto.
Qed.

Lemma size_visit_le (universe visited : gset state) (c : state) :
  (size (universe ∖ ({[ c ]} ∪ visited)) ≤ size (universe ∖ visited))%nat.
Proof. apply subseteq_size. intros x. set_unfold. tauto. Qed.

Lemma size_list_to_set_le (l : list state) :
  (size (list_to_set l : gset state) ≤ length l)%nat.
Proof.
  induction l as [|x l IH]; cbn.
  - rewrite size_empty. lia.
  - rewrite size_union_alt, size_singleton.
    assert (list_to_set l ∖ {[ x ]} ⊆ (list_to_set l : gset state)) as Hsub
      by apply subseteq_difference_l, reflexivity.
    apply subseteq_size in Hsub. lia.
Qed.

Section TraversalEnds.

Variables (G : SDFG) (condition : state -> state -> bool).

Lemma successors_known (n : state) : Forall (fun c => c ∈ universe G) (successors G n).
Proof.
  apply Forall_forall. intros c Hc. unfold universe.
  apply elem_of_list_to_set. unfold successors, out_edges in Hc.
  apply list_elem_of_fmap in Hc as (e & -> & He).
  apply list_elem_of_filter in He as [_ He].
  apply list_elem_of_fmap. exists e. auto.
Qed.

Lemma successors_width (n : state) : (length (successors G n) < width G)%nat.
Proof.
  unfold width, successors, out_edges. rewrite length_fmap.
  pose proof (length_filter (fun e => src e = n) (edges G)). lia.
Qed.

Lemma frames_weight_cons (parent : state) (children : list state)
    (stack : list sdutil.frame) :
  frames_weight ((parent, children) :: stack)
  = S (length children + frames_weight stack).
Proof. reflexivity. Qed.

(** With more fuel than work left, the loop ends. *)
Lemma dfs_loop_ends (fuel : nat) :
  ∀ stack visited out,
    children_known G stack ->
    (work_left G stack visited < fuel)%nat ->
    is_Some (sdutil.dfs_loop G condition fuel stack visited out).
Proof.
  induction fuel as [|fuel IH]; intros stack visited out Hknown Hwork; [lia|].
  cbn [sdutil.dfs_loop].
  destruct stack as [|[parent [|child children]] stack'].
  - eexists. reflexivity.
  - apply IH.
    + inversion Hknown; assumption.
    + unfold work_left in *. rewrite frames_weight_cons in Hwork. lia.
  - inversion Hknown as [|f fs Hf Hrest]; subst. cbn in Hf.
    inversion Hf as [|c cs Hchild Hchildren]; subst.
    assert (children_known G ((parent, children) :: stack')) as Hknown'
      by (constructor; assumption).
    unfold work_left in Hwork. rewrite frames_weight_cons in Hwork.
    cbn [length] in Hwork.
    destruct (decide (child ∈ visited)) as [Hv|Hv].
    + apply IH; [exact Hknown'|].
      unfold work_left. rewrite frames_weight_cons. lia.
    + pose proof (size_visit (universe G) visited child Hchild Hv) as Hsize.
      destruct (condition parent child).
      * apply IH.
        { constructor; [apply successors_known | exact Hknown']. }
        pose proof (successors_width child) as Hw.
        unfold work_left. rewrite !frames_weight_cons. nia.
      * apply IH; [exact Hknown'|].
        unfold work_left. rewrite frames_weight_cons. nia.
Qed.

Lemma universe_size : (size (universe G) < width G)%nat.
Proof.
  unfold universe, width. rewrite <- (length_fmap dst (edges G)).
  pose proof (size_list_to_set_le (dst <$> edges G)). lia.
Qed.

Lemma dfs_sources_ends (sources : list state) :
  ∀ visited out, is_Some (sdutil.dfs_sources G condition sources visited out).
Proof.
  induction sources as [|start sources IH]; intros visited out; cbn [sdutil.dfs_sources].
  - eexists. reflexivity.
  - destruct (decide (start ∈ visited)); [apply IH|].
    destruct (dfs_loop_ends (sdutil.dfs_fuel G) [(start, successors G start)]
                ({[ start ]} ∪ visited) (out ++ [start])) as [[visited' out'] ->].
    + constructor; [apply successors_known | constructor].
    + pose proof (successors_width start) as Hw.
      pose proof universe_size as Hu.
      assert (size (universe G ∖ ({[ start ]} ∪ visited)) ≤ size (universe G))%nat as Hs
        by (apply subseteq_size, subseteq_difference_l; reflexivity).
      unfold work_left, sdutil.dfs_fuel. rewrite frames_weight_cons.
      fold (width G). cbn [frames_weight fmap list_fmap sum_list sum_list_with]. nia.
    + apply IH.
Qed.

(** The traversal always produces its list of nodes. *)
Lemma dfs_conditional_ends (sources : list state) :
  is_Some (sdutil.dfs_conditional G sources condition).
Proof. apply dfs_sources_ends. Qed.

End TraversalEnds.

Section WalksEnd.

Variables (G : SDFG) (start guard : state).

(** Above the root, the immediate dominator is one level up. *)
Lemma idom_depth (n : state) :
  dominance.idom G start n = n ∨ (depth G start (dominance.idom G start n) < depth G start n)%nat.
Proof.
  unfold dominance.idom.
  destruct (decide (n = start)) as [->|Hn]; [left; reflexivity|].
  destruct (head (elements _)) as [d|] eqn:Hhead; [right | left; reflexivity].
  apply head_Some_elem_of, elem_of_elements, elem_of_filter in Hhead as [Hd _].
  cbn [default id]. unfold depth. lia.
Qed.

Lemma immediate_dominators_dom :
  dom (dominance.immediate_dominators G start) = dominance.reachable G start.
Proof.
  apply set_eq. intros n. rewrite elem_of_dom. split.
  - intros [d Hd]. apply immediate_dominators_lookup in Hd as [Hn _]. exact Hn.
  - intros Hn. exists (dominance.idom G start n).
    apply immediate_dominators_lookup. auto.
Qed.

Lemma depth_bound (n : state) :
  (depth G start n ≤ size (dominance.immediate_dominators G start))%nat.
Proof.
  rewrite <- (size_dom (D := gset nat)), immediate_dominators_dom.
  unfold depth, dominance.strict_dominators.
  apply subseteq_size. intros d Hd. apply elem_of_filter in Hd as [_ Hd]. exact Hd.
Qed.

(** A walk with more fuel than the depth of its node ends. *)
Lemma dominator_walk_ends (fuel : nat) :
  ∀ n, (depth G start n < fuel)%nat ->
       dominator_walk (dominance.immediate_dominators G start) guard fuel n ≠ Diverges.
Proof.
  induction fuel as [|fuel IH]; intros n Hfuel; [lia|].
  cbn [dominator_walk].
  destruct (dominance.immediate_dominators G start !! n) as [d|] eqn:Hd; [|discriminate].
  apply immediate_dominators_lookup in Hd as [_ ->].
  destruct (decide (n ≠ dominance.idom G start n)) as [Hne|]; [|discriminate].
  destruct (decide (n = guard)); [discriminate|].
  apply IH. destruct (idom_depth n) as [Heq|Hlt]; [congruence | lia].
Qed.

Lemma walk_from_ends (n : state) :
  walk_from (dominance.immediate_dominators G start) guard n ≠ Diverges.
Proof.
  apply dominator_walk_ends. pose proof (depth_bound n). lia.
Qed.

Lemma check_loop_nodes_ends (graph : SDFG) (loop_nodes : list state) :
  ∀ found,
    check_loop_nodes graph (dominance.immediate_dominators G start) guard
      loop_nodes found ≠ Diverges.
Proof.
  induction loop_nodes as [|n l IH]; intros found; cbn [check_loop_nodes].
  - destruct found; discriminate.
  - pose proof (walk_from_ends n) as Hn. unfold walk_from in Hn.
    destruct (dominator_walk _ _ _ n) as [[]| |]; cbn [bind];
      [apply IH | discriminate | discriminate | contradiction].
Qed.

(** Each step up the tree takes one level off the depth. *)
Lemma climbs_depth (n : state) (k : nat) (m : state) :
  climbs (dominance.immediate_dominators G start) guard n k m ->
  (k + depth G start m ≤ depth G start n)%nat.
Proof.
  induction 1 as [n|n d k m Hd Hnd Hng _ IH]; [reflexivity|].
  apply immediate_dominators_lookup in Hd as [_ ->].
  destruct (idom_depth n) as [Heq|Hlt]; [congruence | lia].
Qed.

(** A node below the guard, the guard not being the root, is accepted. *)
Lemma walk_from_accepts (n : state) (k : nat) (d : state) :
  climbs (dominance.immediate_dominators G start) guard n k guard ->
  dominance.immediate_dominators G start !! guard = Some d -> guard ≠ d ->
  walk_from (dominance.immediate_dominators G start) guard n = Return true.
Proof.
  intros Hclimb Hd Hgd. unfold walk_from.
  eapply dominator_walk_accepts; [eassumption..|].
  pose proof (climbs_depth _ _ _ Hclimb). pose proof (depth_bound n). lia.
Qed.

(** A node whose chain reaches the root before the guard is rejected. *)
Lemma walk_from_rejects (n : state) (k : nat) (r : state) :
  climbs (dominance.immediate_dominators G start) guard n k r ->
  dominance.immediate_dominators G start !! r = Some r ->
  walk_from (dominance.immediate_dominators G start) guard n = Return false.
Proof.
  intros Hclimb Hr. unfold walk_from.
  eapply dominator_walk_rejects; [eassumption..|].
  pose proof (climbs_depth _ _ _ Hclimb). pose proof (depth_bound n). lia.
Qed.

End WalksEnd.

(** Once the edge checks pass, the first traversed node whose chain reaches
    the root before the guard makes [can_be_applied] return False, whatever
    the traversal holds after it. *)
Lemma can_be_applied_rejects_outside (graph sdfg : SDFG) (candidate : Candidate)
    (expr_index : nat) (strict : bool) (guard begin : state)
    (before after : list state) (n : state) (k : nat) (r : state) :
  let dominators := dominance.immediate_dominators sdfg (start_state sdfg) in
  node graph (candidate _loop_guard) = Return guard ->
  node graph (candidate _loop_begin) = Return begin ->
  passes_edge_checks graph guard ->
  sdutil.dfs_conditional sdfg [begin] (fun _ child => bool_decide (child ≠ guard))
    = Some (before ++ n :: after) ->
  (∀ m, m ∈ before -> walk_from dominators guard m = Return true) ->
  climbs dominators guard n k r ->
  dominators !! r = Some r ->
  can_be_applied graph candidate expr_index sdfg strict = Return false.
Proof.
  intros dominators Hguard Hbegin Hedges Hdfs Hbefore Hclimb Hroot.
  rewrite (can_be_applied_traversal _ _ _ _ _ guard begin) by assumption.
  rewrite Hdfs. apply check_loop_nodes_rejects; [exact Hbefore|].
  eapply walk_from_rejects; eassumption.
Qed.

(** [can_be_applied] always returns or raises: the traversal and the walks
    up the dominator tree end on every graph. *)
Lemma can_be_applied_total (graph sdfg : SDFG) (candidate : Candidate)
    (expr_index : nat) (strict : bool) :
  can_be_applied graph candidate expr_index sdfg strict ≠ Diverges.
Proof.
  unfold can_be_applied, node, index.
  repeat match goal with
         | |- context [decide ?P] => destruct (decide P)
         | |- (if ?b then _ else _) ≠ _ => destruct b
         | |- bind (match ?o with Some _ => _ | None => _ end) _ ≠ _ =>
             destruct o; cbn [bind]
         end; try discriminate.
  match goal with
  | |- context [sdutil.dfs_conditional ?g ?sources ?c] =>
      destruct (dfs_conditional_ends g c sources) as [loop_nodes ->]
  end.
  apply check_loop_nodes_ends.
Qed.

(** [find_for_loop] has no loop: it returns or raises. *)
Lemma find_for_loop_total (sdfg : SDFG) (guard entry : state) :
  find_for_loop sdfg guard entry ≠ Diverges.
Proof.
  unfold find_for_loop, index.
  repeat match goal with
         | |- context [match ?o with Some _ => _ | None => _ end] =>
             destruct o; cbn [bind]
         | |- context [getitem ?d ?k] =>
             assert (getitem d k ≠ Diverges) by
               (induction d as [|[] ? ?]; cbn; [discriminate | case_decide; [discriminate | assumption]]);
             destruct (getitem d k); cbn [bind]
         | |- context [if ?b then _ else _] => destruct b; cbn [bind negb]
         end; try discriminate; try contradiction.
Qed.

(* ===================================================================== *)
(** ** More of validation: what is accepted, what raises *)
(* ===================================================================== *)

Lemma has_edge_to_true (graph : SDFG) (n guard : state) :
  has_edge_to graph n guard = true <->
  ∃ e, e ∈ out_edges graph n ∧ dst e = guard.
Proof.
  unfold has_edge_to. rewrite existsb_exists. split.
  - intros (e & He & Hd). exists e. split; [apply list_elem_of_In, He|].
    apply bool_decide_eq_true in Hd. exact Hd.
  - intros (e & He & Hd). exists e. split; [apply list_elem_of_In, He|].
    apply bool_decide_eq_true. exact Hd.
Qed.

Lemma existsb_has_edge_to (graph : SDFG) (guard : state) (loop_nodes : list state) :
  existsb (fun n => has_edge_to graph n guard) loop_nodes = true <->
  ∃ n e, n ∈ loop_nodes ∧ e ∈ out_edges graph n ∧ dst e = guard.
Proof.
  rewrite existsb_exists. split.
  - intros (n & Hn & Hedge). apply has_edge_to_true in Hedge as (e & He & Hd).
    exists n, e. split; [apply list_elem_of_In, Hn | auto].
  - intros (n & e & Hn & He & Hd). exists n.
    split; [apply list_elem_of_In, Hn | apply has_edge_to_true; eauto].
Qed.

(** X1: [can_be_applied] returns True exactly for the candidates whose guard
    and loop-begin ids are nodes of the graph, whose guard passes every
    check on its edges, whose traversed nodes are all accepted by their walk
    up the dominators, and of which some traversed node has an edge to the
    guard. *)
Theorem can_be_applied_accepts_iff (graph sdfg : SDFG) (candidate : Candidate)
    (expr_index : nat) (strict : bool) :
  can_be_applied graph candidate expr_index sdfg strict = Return true <->
  ∃ guard begin loop_nodes,
    node graph (candidate _loop_guard) = Return guard ∧
    node graph (candidate _loop_begin) = Return begin ∧
    passes_edge_checks graph guard ∧
    sdutil.dfs_conditional sdfg [begin] (fun _ child => bool_decide (child ≠ guard))
      = Some loop_nodes ∧
    (∀ n, n ∈ loop_nodes ->
          walk_from (dominance.immediate_dominators sdfg (start_state sdfg)) guard n
          = Return true) ∧
    (∃ n e, n ∈ loop_nodes ∧ e ∈ out_edges graph n ∧ dst e = guard).
Proof.
  split.
  - intros Htrue.
    apply can_be_applied_true in Htrue
      as (guard & begin & loop_nodes & Hg & Hb & Hedges & Hdfs & Hwalks & n & Hn & Hedge).
    exists guard, begin, loop_nodes. repeat split; try assumption.
    apply has_edge_to_true in Hedge as (e & He & Hd). exists n, e. auto.
  - intros (guard & begin & loop_nodes & Hg & Hb & Hedges & Hdfs & Hwalks & Hback).
    rewrite (can_be_applied_all_inside graph sdfg candidate expr_index strict guard begin
               Hg Hb loop_nodes Hedges Hdfs Hwalks).
    f_equal. apply existsb_has_edge_to. exact Hback.
Qed.

(** X2: the two node lookups come before every check: a candidate whose
    guard id or loop-begin id is not an index of the node list makes
    [can_be_applied] raise IndexError, whatever the edges of the graph. *)
Theorem can_be_applied_missing_node (graph sdfg : SDFG) (candidate : Candidate)
    (expr_index : nat) (strict : bool) :
  (length (nodes graph) ≤ candidate _loop_guard ∨
   length (nodes graph) ≤ candidate _loop_begin)%nat ->
  can_be_applied graph candidate expr_index sdfg strict = Raise IndexError.
Proof.
  intros Hout. unfold can_be_applied, node, index.
  destruct (nodes graph !! candidate _loop_guard) as [guard|] eqn:Hg; cbn [bind];
    [|reflexivity].
  destruct (nodes graph !! candidate _loop_begin) as [begin|] eqn:Hb; cbn [bind];
    [|reflexivity].
  apply lookup_lt_Some in Hg, Hb. lia.
Qed.

(** X4: a candidate whose guard is the start state of the graph is never
    accepted: the guard is then the root of the dominator dict, and the walk
    from the loop-begin state ends on the root without a [break]. *)
Theorem can_be_applied_start_guard (graph sdfg : SDFG) (candidate : Candidate)
    (expr_index : nat) (strict : bool) :
  node graph (candidate _loop_guard) = Return (start_state sdfg) ->
  can_be_applied graph candidate expr_index sdfg strict ≠ Return true.
Proof.
  intros Hguard Htrue.
  apply can_be_applied_true in Htrue
    as (guard & begin & loop_nodes & Hg & _ & _ & Hdfs & Hwalks & _).
  assert (guard = start_state sdfg) as -> by congruence.
  apply dfs_conditional_source_first in Hdfs as [rest ->].
  specialize (Hwalks begin). unfold walk_from in Hwalks.
  eapply dominator_walk_guard_root; [|apply Hwalks; left].
  apply immediate_dominators_start.
Qed.

(** X5: a traversed node whose chain of immediate dominators reaches the
    root before the guard keeps the candidate from being accepted; when the
    checks on the edges pass and the nodes traversed before it are accepted,
    [can_be_applied] returns False at that node. *)
Theorem can_be_applied_outside_node (graph sdfg : SDFG) (candidate : Candidate)
    (expr_index : nat) (strict : bool) (guard begin : state)
    (before after : list state) (n : state) (k : nat) (r : state) :
  node graph (candidate _loop_guard) = Return guard ->
  node graph (candidate _loop_begin) = Return begin ->
  sdutil.dfs_conditional sdfg [begin] (fun _ child => bool_decide (child ≠ guard))
    = Some (before ++ n :: after) ->
  climbs (dominance.immediate_dominators sdfg (start_state sdfg)) guard n k r ->
  dominance.immediate_dominators sdfg (start_state sdfg) !! r = Some r ->
  can_be_applied graph candidate expr_index sdfg strict ≠ Return true ∧
  (passes_edge_checks graph guard ->
   (∀ m, m ∈ before ->
         walk_from (dominance.immediate_dominators sdfg (start_state sdfg)) guard m
         = Return true) ->
   can_be_applied graph candidate expr_index sdfg strict = Return false).
Proof.
  intros Hguard Hbegin Hdfs Hclimb Hroot. split.
  - intros Htrue.
    apply can_be_applied_true in Htrue
      as (guard' & begin' & loop_nodes & Hg & Hb & _ & Hdfs' & Hwalks & _).
    assert (guard' = guard) as -> by congruence.
    assert (begin' = begin) as -> by congruence.
    assert (loop_nodes = before ++ n :: after) as -> by congruence.
    pose proof (walk_from_rejects sdfg (start_state sdfg) guard n k r Hclimb Hroot) as Hn.
    rewrite Hwalks in Hn; [discriminate|].
    apply elem_of_app. right. left.
  - intros Hedges Hbefore.
    eapply can_be_applied_rejects_outside; eassumption.
Qed.

Section MoreValidation.

Variables (graph sdfg : SDFG) (candidate : Candidate).
Variables (expr_index : nat) (strict : bool).
Variables (guard begin : state).

Hypothesis Hguard : node graph (candidate _loop_guard) = Return guard.
Hypothesis Hbegin : node graph (candidate _loop_begin) = Return begin.
Hypothesis Hedges : passes_edge_checks graph guard.

(** X3: when the checks on the edges pass and the loop-begin state is not a
    key of the dominator dict (no path from the start state reaches it),
    [can_be_applied] raises KeyError: the first walk starts at the
    loop-begin state and looks it up. *)
Theorem can_be_applied_unreachable_begin :
  dominance.immediate_dominators sdfg (start_state sdfg) !! begin = None ->
  can_be_applied graph candidate expr_index sdfg strict = Raise KeyError.
Proof.
  intros Hnone.
  rewrite (can_be_applied_traversal _ _ _ _ _ guard begin) by assumption.
  destruct (dfs_conditional_ends sdfg (fun _ child => bool_decide (child ≠ guard)) [begin])
    as [loop_nodes Hdfs].
  rewrite Hdfs. apply dfs_conditional_source_first in Hdfs as [rest ->].
  cbn [check_loop_nodes dominator_walk]. rewrite Hnone. reflexivity.
Qed.

(** X6: for a candidate of the first pattern, whose edge from the
    loop-begin state back to the guard lies on an edge of the graph, the
    back-edge is always found: once the checks on the edges pass and every
    traversed node is accepted by its walk, [can_be_applied] returns True. *)
Theorem can_be_applied_first_pattern (pattern : Pattern) (loop_nodes : list state) :
  expressions !! 0%nat = Some pattern ->
  maps_edges graph candidate pattern ->
  sdutil.dfs_conditional sdfg [begin] (fun _ child => bool_decide (child ≠ guard))
    = Some loop_nodes ->
  (∀ n, n ∈ loop_nodes ->
        walk_from (dominance.immediate_dominators sdfg (start_state sdfg)) guard n
        = Return true) ->
  can_be_applied graph candidate expr_index sdfg strict = Return true.
Proof.
  intros Hpattern Hmaps Hdfs Hwalks. injection Hpattern as <-.
  rewrite (can_be_applied_all_inside graph sdfg candidate expr_index strict guard begin
             Hguard Hbegin loop_nodes Hedges Hdfs Hwalks).
  f_equal. apply existsb_has_edge_to.
  destruct (Hmaps _loop_begin _loop_guard default_edge) as (su & sv & Hsu & Hsv & Hbetween).
  { cbn [p_edges]. set_solver. }
  assert (su = begin) as -> by congruence. assert (sv = guard) as -> by congruence.
  destruct (edges_between graph begin guard) as [|e rest] eqn:He; [contradiction|].
  assert (e ∈ edges_between graph begin guard) as Hin by (rewrite He; left).
  unfold edges_between in Hin. apply list_elem_of_filter in Hin as [[Hs Hd] Hin].
  pose proof Hdfs as Hfirst. apply dfs_conditional_source_first in Hfirst as [rest' ->].
  exists begin, e. split; [left|]. split; [|exact Hd].
  unfold out_edges. apply list_elem_of_filter. auto.
Qed.

End MoreValidation.

(* ===================================================================== *)
(** ** More of extraction: the end, the faults, what is read *)
(* ===================================================================== *)

(** The end comes from a comparison whose left-hand side is the iteration
    variable, and from nothing else. *)
Lemma find_end_Some (itersym : expr) (c : cond) (e : expr) :
  find_end itersym c = Some e <-> ∃ op a, c = Rel op itersym a ∧ e = end_of op a.
Proof.
  split.
  - unfold find_end, match_. cbn [t_op t_lhs].
    destruct c as [| |op l r| |]; try discriminate.
    destruct (decide (l = itersym)) as [->|Hl].
    + destruct op; cbn; intros [= <-].
      * exists StrictLessThan, r. auto.
      * exists LessThan, r. auto.
      * exists StrictGreaterThan, r. auto.
      * exists GreaterThan, r. auto.
    + destruct op; cbn; discriminate.
  - intros (op & a & -> & ->). unfold find_end, match_. cbn [t_op t_lhs].
    destruct (decide (itersym = itersym)) as [_|Hne]; [|contradiction].
    destruct op; reflexivity.
Qed.

Lemma getitem_KeyError (d : list (string * expr)) (k : string) :
  k ∉ keys d -> getitem d k = Raise KeyError.
Proof.
  induction d as [|[k' v] d IH]; cbn; [reflexivity|]. intros Hk.
  rewrite not_elem_of_cons in Hk. destruct Hk as [Hne Hk].
  rewrite decide_False by congruence. apply IH, Hk.
Qed.

Lemma getitem_Return (d : list (string * expr)) (k : string) :
  k ∈ keys d -> ∃ v, getitem d k = Return v.
Proof.
  induction d as [|[k' v] d IH]; cbn; intros Hk; [inversion Hk|].
  destruct (decide (k' = k)) as [|Hne]; [eauto|].
  apply IH. apply elem_of_cons in Hk as [Hk|Hk]; [congruence | exact Hk].
Qed.


Lemma find_for_loop_few_incoming (sdfg : SDFG) (guard entry : state) :
  (length (in_edges sdfg guard) < 2)%nat ->
  ∃ e, find_for_loop sdfg guard entry = Raise e.
Proof.
  intros Hlen. unfold find_for_loop.
  destruct (edges_between sdfg guard entry) as [|ce others]; [eexists; reflexivity|].
  cbn [index lookup list_lookup bind].
  destruct (in_edges sdfg guard) as [|in0 [|in1 more]]; cbn in Hlen;
    [eexists; reflexivity | | lia].
  cbn [index lookup list_lookup bind].
  destruct (assignments (data in0)) as [|[x e0] more0] eqn:H0; [eexists; reflexivity|].
  cbn [keys fmap list_fmap fst index lookup list_lookup bind].
  rewrite getitem_first. cbn [bind].
  destruct (has_free_symbol x e0); eexists; reflexivity.
Qed.


Lemma find_for_loop_missing_key (sdfg : SDFG) (guard entry : state)
    (in0 in1 : Edge) (more : list Edge) (itervar : string) (e0 : expr)
    (more0 : list (string * expr)) :
  edges_between sdfg guard entry ≠ [] ->
  in_edges sdfg guard = in0 :: in1 :: more ->
  assignments (data in0) = (itervar, e0) :: more0 ->
  itervar ∉ keys (assignments (data in1)) ->
  find_for_loop sdfg guard entry = Raise KeyError.
Proof.
  intros Hsome Hin H0 Hmissing. apply getitem_KeyError in Hmissing.
  destruct (edges_between sdfg guard entry) as [|ce others] eqn:Hce; [contradiction|].
  unfold find_for_loop. rewrite Hce, Hin.
  cbn [index lookup list_lookup bind]. rewrite H0.
  cbn [keys fmap list_fmap fst index lookup list_lookup bind].
  rewrite getitem_first, Hmissing. cbn [bind].
  destruct (has_free_symbol itervar e0); reflexivity.
Qed.


(** X9: [find_for_loop] reads the first two incoming edges of the guard and
    the first edge from the guard to the entry, and nothing else of the
    graph: two graphs that agree on these give the same outcome. *)
Theorem find_for_loop_reads (g g' : SDFG) (guard entry : state) :
  in_edges g guard !! 0%nat = in_edges g' guard !! 0%nat ->
  in_edges g guard !! 1%nat = in_edges g' guard !! 1%nat ->
  edges_between g guard entry !! 0%nat = edges_between g' guard entry !! 0%nat ->
  find_for_loop g guard entry = find_for_loop g' guard entry.
Proof.
  intros H0 H1 Hbetween. unfold find_for_loop, index.
  rewrite H0, H1, Hbetween. reflexivity.
Qed.

(** X10: what a result of [find_for_loop] tells: the variable is the one
    that the first incoming edge lists first; of the two expressions
    assigned to it on the first two incoming edges, one contains it and the
    stride is that one minus the variable, the other does not contain it
    and is the start; and the condition on the edge to the entry is a
    comparison with the variable on its left, whose right-hand side gives
    the end. *)
Theorem find_for_loop_result (sdfg : SDFG) (guard entry : state)
    (itervar : string) (start end_ stride : expr) :
  find_for_loop sdfg guard entry = Return (Some (itervar, (start, end_, stride))) ->
  ∃ in0 in1 more e0 more0 e1 ce others op a,
    in_edges sdfg guard = in0 :: in1 :: more ∧
    assignments (data in0) = (itervar, e0) :: more0 ∧
    getitem (assignments (data in1)) itervar = Return e1 ∧
    edges_between sdfg guard entry = ce :: others ∧
    condition_sympy (data ce) = Rel op (symbol itervar) a ∧
    end_ = end_of op a ∧
    has_free_symbol itervar start = false ∧
    ∃ increment, has_free_symbol itervar increment = true ∧
                 stride = sub increment (symbol itervar) ∧
                 ((start = e0 ∧ increment = e1) ∨ (start = e1 ∧ increment = e0)).
Proof.
  intros Hresult.
  destruct (edges_between sdfg guard entry) as [|ce others] eqn:Hce.
  { unfold find_for_loop in Hresult. rewrite Hce in Hresult. discriminate. }
  destruct (in_edges sdfg guard) as [|in0 [|in1 more]] eqn:Hin.
  { unfold find_for_loop in Hresult. rewrite Hce, Hin in Hresult. discriminate. }
  { destruct (find_for_loop_few_incoming sdfg guard entry) as [e He];
      [rewrite Hin; cbn; lia | congruence]. }
  destruct (assignments (data in0)) as [|[x e0] more0] eqn:H0.
  { unfold find_for_loop in Hresult. rewrite Hce, Hin in Hresult.
    cbn [index lookup list_lookup bind] in Hresult. rewrite H0 in Hresult.
    discriminate. }
  destruct (decide (x ∈ keys (assignments (data in1)))) as [Hkey|Hkey].
  2:{ rewrite (find_for_loop_missing_key sdfg guard entry in0 in1 more x e0 more0)
        in Hresult; [discriminate | rewrite Hce; discriminate | assumption..]. }
  apply getitem_Return in Hkey as [e1 He1].
  rewrite (find_for_loop_classified sdfg guard entry in0 in1 more ce others x e0 e1 more0)
    in Hresult by assumption.
  injection Hresult as Hresult.
  destruct (has_free_symbol x e0) eqn:Hf0, (has_free_symbol x e1) eqn:Hf1;
    try discriminate; unfold loop_result in Hresult;
    destruct (find_end _ _) as [e|] eqn:Hend; try discriminate;
    injection Hresult as <- <- <- <-;
    apply find_end_Some in Hend as (op & a & Hc & ->);
    exists in0, in1, more, e0, more0, e1, ce, others, op, a;
    repeat split; try assumption; try reflexivity.
  - exists e0. repeat split; try assumption. right. auto.
  - exists e1. repeat split; try assumption. left. auto.
Qed.

(* ===================================================================== *)
(** ** Validation, extraction and the match label together *)
(* ===================================================================== *)

(** X11: after validation, extraction does not raise.  For a candidate
    that [can_be_applied] accepts and any entry state that has an edge from
    the guard, [find_for_loop] returns None or a result, and the variable of
    a result is the one variable that both incoming edges of the guard
    assign. *)
Theorem find_for_loop_after_validation (graph sdfg : SDFG) (candidate : Candidate)
    (expr_index : nat) (strict : bool) (guard entry : state) :
  can_be_applied graph candidate expr_index sdfg strict = Return true ->
  node graph (candidate _loop_guard) = Return guard ->
  edges_between graph guard entry ≠ [] ->
  ∃ in0 in1 itervar e0 e1,
    in_edges graph guard = [in0; in1] ∧
    assignments (data in0) = [(itervar, e0)] ∧
    assignments (data in1) = [(itervar, e1)] ∧
    (find_for_loop graph guard entry = Return None ∨
     ∃ range, find_for_loop graph guard entry = Return (Some (itervar, range))).
Proof.
  intros Htrue Hguard Hbetween.
  apply can_be_applied_true in Htrue as (guard' & begin & loop_nodes & Hg & _ & Hedges & _).
  assert (guard' = guard) as -> by congruence.
  destruct Hedges as (in0 & in1 & out0 & out1 & x & e0 & e1 & Hin & _ & H0 & H1 & _).
  exists in0, in1, x, e0, e1. repeat split; try assumption.
  destruct (edges_between graph guard entry) as [|ce others] eqn:Hce; [contradiction|].
  rewrite (find_for_loop_classified graph guard entry in0 in1 [] ce others x e0 e1 [])
    by (try assumption; rewrite H1; apply getitem_first).
  unfold loop_result.
  destruct (has_free_symbol x e0), (has_free_symbol x e1); auto;
    destruct (find_end _ _); eauto.
Qed.

(** X12: the label of an accepted match.  For a candidate that
    [can_be_applied] accepts and whose exit id is a node of the graph,
    [match_to_str] returns the labels of guard, loop-begin and exit joined by
    arrows, followed by the variable that both incoming edges of the guard
    assign. *)
Theorem match_to_str_accepted (label : state -> string) (graph sdfg : SDFG)
    (candidate : Candidate) (expr_index : nat) (strict : bool) (sexit : state) :
  can_be_applied graph candidate expr_index sdfg strict = Return true ->
  node graph (candidate _exit_state) = Return sexit ->
  ∃ guard begin in0 in1 itervar e0 e1,
    node graph (candidate _loop_guard) = Return guard ∧
    node graph (candidate _loop_begin) = Return begin ∧
    in_edges graph guard = [in0; in1] ∧
    assignments (data in0) = [(itervar, e0)] ∧
    assignments (data in1) = [(itervar, e1)] ∧
    match_to_str label graph candidate =
    Return (String.append (join " -> " [label guard; label begin; label sexit])
                          (for_loop_over itervar)).
Proof.
  intros Htrue Hexit.
  apply can_be_applied_true in Htrue as (guard & begin & loop_nodes & Hg & Hb & Hedges & _).
  destruct Hedges as (in0 & in1 & out0 & out1 & x & e0 & e1 & Hin & _ & H0 & H1 & _).
  exists guard, begin, in0, in1, x, e0, e1. repeat split; try assumption.
  unfold match_to_str. rewrite Hg, Hb, Hexit. cbn [bind]. rewrite Hin.
  cbn [index lookup list_lookup bind]. rewrite H0.
  reflexivity.
Qed.

(** X13: the faults of [match_to_str]: IndexError when one of the three ids
    of the candidate, the exit id included, is not an index of the node
    list, when the guard has no incoming edge, and when its first incoming
    edge carries no assignment; otherwise a label is returned, also for a
    candidate that validation refuses. *)
Theorem match_to_str_faults (label : state -> string) (graph : SDFG)
    (candidate : Candidate) :
  (∀ p, (length (nodes graph) ≤ candidate p)%nat ->
        match_to_str label graph candidate = Raise IndexError) ∧
  (∀ guard begin sexit,
     node graph (candidate _loop_guard) = Return guard ->
     node graph (candidate _loop_begin) = Return begin ->
     node graph (candidate _exit_state) = Return sexit ->
     (in_edges graph guard = [] ->
      match_to_str label graph candidate = Raise IndexError) ∧
     (∀ in0 more,
        in_edges graph guard = in0 :: more ->
        (assignments (data in0) = [] ->
         match_to_str label graph candidate = Raise IndexError) ∧
        (∀ ind e more0,
           assignments (data in0) = (ind, e) :: more0 ->
           match_to_str label graph candidate =
           Return (String.append (join " -> " [label guard; label begin; label sexit])
                                 (for_loop_over ind))))).
Proof.
  split.
  - intros p Hp. unfold match_to_str, node, index.
    destruct (nodes graph !! candidate _loop_guard) as [guard|] eqn:Hg; cbn [bind];
      [|reflexivity].
    destruct (nodes graph !! candidate _loop_begin) as [begin|] eqn:Hb; cbn [bind];
      [|reflexivity].
    destruct (nodes graph !! candidate _exit_state) as [sexit|] eqn:He; cbn [bind];
      [|reflexivity].
    apply lookup_lt_Some in Hg, Hb, He. destruct p; lia.
  - intros guard begin sexit Hg Hb He. unfold match_to_str.
    rewrite Hg, Hb, He. cbn [bind]. split.
    + intros ->. reflexivity.
    + intros in0 more ->. cbn [index lookup list_lookup bind]. split.
      * intros ->. reflexivity.
      * intros ind e more0 ->. reflexivity.
Qed.

(** X14: the variable that [match_to_str] names is the variable of every
    result of [find_for_loop] on the same guard. *)
Theorem match_to_str_names_itervar (label : state -> string) (graph : SDFG)
    (candidate : Candidate) (guard entry : state)
    (itervar : string) (range : Range) (text : string) :
  node graph (candidate _loop_guard) = Return guard ->
  find_for_loop graph guard entry = Return (Some (itervar, range)) ->
  match_to_str label graph candidate = Return text ->
  ∃ names, text = String.append names (for_loop_over itervar).
Proof.
  intros Hg Hfind Hstr. destruct range as [[start end_] stride].
  unfold find_for_loop in Hfind.
  destruct (edges_between graph guard entry) as [|ce others]; [discriminate|].
  cbn [index lookup list_lookup bind] in Hfind.
  unfold match_to_str in Hstr. rewrite Hg in Hstr. cbn [bind] in Hstr.
  destruct (node graph (candidate _loop_begin)) as [begin| |]; try discriminate.
  destruct (node graph (candidate _exit_state)) as [sexit| |]; try discriminate.
  cbn [bind] in Hstr.
  destruct (in_edges graph guard) as [|in0 more]; [discriminate|].
  cbn [index lookup list_lookup bind] in Hfind, Hstr.
  destruct (assignments (data in0)) as [|[x e0] more0]; [discriminate|].
  cbn [keys fmap list_fmap fst index lookup list_lookup bind] in Hfind, Hstr.
  injection Hstr as <-.
  assert (x = itervar) as ->.
  { repeat match type of Hfind with
           | bind ?m _ = _ => destruct m; cbn [bind] in Hfind; try discriminate
           | (if ?b then _ else _) = _ => destruct b; cbn [bind negb] in Hfind;
                                           try discriminate
           | match find_end ?i ?c with _ => _ end = _ =>
               destruct (find_end i c); try discriminate
           end; congruence. }
  eexists. reflexivity.
Qed.

(* ===================================================================== *)
(** ** What validation does not read: the assigned expressions *)
(* ===================================================================== *)

Lemma filter_fmap_edges (f : Edge -> Edge) (P Q : Edge -> Prop)
    `{!∀ e, Decision (P e)} `{!∀ e, Decision (Q e)} (l : list Edge) :
  (∀ e, P (f e) <-> Q e) ->
  filter P (f <$> l) = f <$> filter Q l.
Proof.
  intros HPQ. induction l as [|e l IH]; [reflexivity|].
  cbn [fmap list_fmap]. rewrite !filter_cons.
  destruct (decide (P (f e))) as [HP|HP], (decide (Q e)) as [HQ|HQ].
  - cbn [fmap list_fmap]. f_equal. exact IH.
  - apply HPQ in HP. contradiction.
  - apply HPQ in HQ. contradiction.
  - exact IH.
Qed.

(** Two graphs on which a sweep adds the same nodes and every state has
    the same successors: the dominators and the traversal are the same. *)
Section SameStructure.

Variables g g' : SDFG.
Hypothesis Hsweep : ∀ avoid R, dominance.sweep g' avoid R = dominance.sweep g avoid R.
Hypothesis Hlength : length (edges g') = length (edges g).
Hypothesis Hsuccessors : ∀ n, successors g' n = successors g n.

Lemma reachable_avoiding_same (avoid : option state) (start : state) :
  dominance.reachable_avoiding g' avoid start
  = dominance.reachable_avoiding g avoid start.
Proof.
  unfold dominance.reachable_avoiding. rewrite Hlength.
  destruct (decide (avoid = Some start)); [reflexivity|].
  generalize (length (edges g)). intros k.
  induction k as [|k IH]; [reflexivity|].
  rewrite !Nat.iter_succ, IH. apply Hsweep.
Qed.

Lemma strict_dominators_same (start n : state) :
  dominance.strict_dominators g' start n = dominance.strict_dominators g start n.
Proof.
  unfold dominance.strict_dominators, dominance.reachable.
  rewrite reachable_avoiding_same.
  apply set_eq. intros d. rewrite !elem_of_filter, reachable_avoiding_same. reflexivity.
Qed.

Lemma idom_same (start n : state) :
  dominance.idom g' start n = dominance.idom g start n.
Proof.
  unfold dominance.idom. rewrite strict_dominators_same.
  destruct (decide (n = start)); [reflexivity|].
  cbn zeta. do 3 f_equal. apply set_eq. intros d.
  rewrite !elem_of_filter, strict_dominators_same. reflexivity.
Qed.

Lemma immediate_dominators_same (start : state) :
  dominance.immediate_dominators g' start = dominance.immediate_dominators g start.
Proof.
  apply map_eq. intros n. apply option_eq. intros d.
  rewrite !immediate_dominators_lookup. unfold dominance.reachable.
  rewrite reachable_avoiding_same, idom_same. reflexivity.
Qed.

Lemma dfs_loop_same (condition : state -> state -> bool) (fuel : nat) :
  ∀ stack visited out,
    sdutil.dfs_loop g' condition fuel stack visited out
    = sdutil.dfs_loop g condition fuel stack visited out.
Proof.
  induction fuel as [|fuel IH]; intros stack visited out; [reflexivity|].
  cbn [sdutil.dfs_loop].
  destruct stack as [|[parent [|child children]] stack']; [reflexivity | apply IH |].
  destruct (decide (child ∈ visited)); [apply IH|].
  destruct (condition parent child); [|apply IH].
  rewrite Hsuccessors. apply IH.
Qed.

Lemma dfs_conditional_same (sources : list state) (condition : state -> state -> bool) :
  sdutil.dfs_conditional g' sources condition
  = sdutil.dfs_conditional g sources condition.
Proof.
  unfold sdutil.dfs_conditional. generalize (∅ : gset state) ([] : list state).
  induction sources as [|start sources IH]; intros visited out; [reflexivity|].
  cbn [sdutil.dfs_sources].
  destruct (decide (start ∈ visited)); [apply IH|].
  unfold sdutil.dfs_fuel. rewrite Hlength, dfs_loop_same, Hsuccessors.
  destruct (sdutil.dfs_loop _ _ _ _ _ _) as [[visited' out']|]; [apply IH | reflexivity].
Qed.

End SameStructure.

(** The loop over the traversed nodes reads the graph through
    [has_edge_to] only. *)
Lemma check_loop_nodes_same (g g' : SDFG) (dominators : gmap state state)
    (guard : state) (loop_nodes : list state) :
  (∀ n, has_edge_to g' n guard = has_edge_to g n guard) ->
  ∀ found,
    check_loop_nodes g' dominators guard loop_nodes found
    = check_loop_nodes g dominators guard loop_nodes found.
Proof.
  intros Hedge. induction loop_nodes as [|n l IH]; intros found; [reflexivity|].
  cbn [check_loop_nodes]. rewrite Hedge.
  destruct (dominator_walk _ _ _ n) as [[]| |]; cbn [bind]; try reflexivity.
  apply IH.
Qed.

Section SameShape.

(** A change of the edges that keeps their ends. *)
Variable f : Edge -> Edge.
Hypothesis Hsrc : ∀ e, src (f e) = src e.
Hypothesis Hdst : ∀ e, dst (f e) = dst e.

Lemma in_edges_map (g : SDFG) (n : state) :
  in_edges (map_edges f g) n = f <$> in_edges g n.
Proof.
  unfold in_edges. cbn [edges map_edges]. apply filter_fmap_edges.
  intros e. rewrite Hdst. reflexivity.
Qed.

Lemma out_edges_map (g : SDFG) (n : state) :
  out_edges (map_edges f g) n = f <$> out_edges g n.
Proof.
  unfold out_edges. cbn [edges map_edges]. apply filter_fmap_edges.
  intros e. rewrite Hsrc. reflexivity.
Qed.

Lemma dst_fmap_map (l : list Edge) : dst <$> (f <$> l) = dst <$> l.
Proof.
  rewrite <- list_fmap_compose. apply list_fmap_ext. intros i e _. apply Hdst.
Qed.

Lemma successors_map (g : SDFG) (n : state) :
  successors (map_edges f g) n = successors g n.
Proof. unfold successors. rewrite out_edges_map. apply dst_fmap_map. Qed.

Lemma has_edge_to_map (g : SDFG) (n guard : state) :
  has_edge_to (map_edges f g) n guard = has_edge_to g n guard.
Proof.
  unfold has_edge_to. rewrite out_edges_map.
  induction (out_edges g n) as [|e l IH]; [reflexivity|].
  cbn [fmap list_fmap existsb]. rewrite Hdst. f_equal. exact IH.
Qed.

Lemma sweep_map (g : SDFG) (avoid : option state) (R : gset state) :
  dominance.sweep (map_edges f g) avoid R = dominance.sweep g avoid R.
Proof.
  unfold dominance.sweep. cbn [edges map_edges]. do 2 f_equal.
  rewrite (filter_fmap_edges f _ (fun e => src e ∈ R ∧ avoid ≠ Some (dst e))).
  - apply dst_fmap_map.
  - intros e. rewrite Hsrc, Hdst. reflexivity.
Qed.

Lemma immediate_dominators_map (g : SDFG) (start : state) :
  dominance.immediate_dominators (map_edges f g) start
  = dominance.immediate_dominators g start.
Proof.
  apply immediate_dominators_same; [apply sweep_map|].
  cbn [edges map_edges]. apply length_fmap.
Qed.

Lemma dfs_conditional_map (g : SDFG) (sources : list state)
    (condition : state -> state -> bool) :
  sdutil.dfs_conditional (map_edges f g) sources condition
  = sdutil.dfs_conditional g sources condition.
Proof.
  apply dfs_conditional_same; [|apply successors_map].
  cbn [edges map_edges]. apply length_fmap.
Qed.

End SameShape.

Lemma keys_with_values (h : string -> expr -> expr) (d : list (string * expr)) :
  keys ((fun kv => (kv.1, h kv.1 kv.2)) <$> d) = keys d.
Proof.
  unfold keys. rewrite <- list_fmap_compose. apply list_fmap_ext.
  intros i kv _. reflexivity.
Qed.

Lemma length_with_values (h : string -> expr -> expr) (e : Edge) :
  length (assignments (data (with_values h e))) = length (assignments (data e)).
Proof. unfold with_values. cbn. apply length_fmap. Qed.

(** X15: validation does not read the expressions that the edges assign.
    Replacing every assigned expression of the graph, the assigned
    variables, the conditions and the edges staying as they are, does not
    change the outcome of [can_be_applied]. *)
Theorem can_be_applied_ignores_values (h : string -> expr -> expr)
    (graph sdfg : SDFG) (candidate : Candidate) (expr_index : nat) (strict : bool) :
  can_be_applied (map_edges (with_values h) graph) candidate expr_index
                 (map_edges (with_values h) sdfg) strict
  = can_be_applied graph candidate expr_index sdfg strict.
Proof.
  assert (∀ e, src (with_values h e) = src e) as Hsrc by reflexivity.
  assert (∀ e, dst (with_values h e) = dst e) as Hdst by reflexivity.
  unfold can_be_applied.
  change (node (map_edges (with_values h) graph)) with (node graph).
  destruct (node graph (candidate _loop_guard)) as [guard| |]; cbn [bind];
    try reflexivity.
  destruct (node graph (candidate _loop_begin)) as [begin| |]; cbn [bind];
    try reflexivity.
  rewrite (in_edges_map _ Hdst), (out_edges_map _ Hsrc), !length_fmap.
  destruct (decide (length (in_edges graph guard) ≠ 2%nat)) as [|Hin]; [reflexivity|].
  destruct (decide (length (out_edges graph guard) ≠ 2%nat)) as [|Hout]; [reflexivity|].
  destruct (in_edges graph guard) as [|in0 [|in1 [|]]]; cbn in Hin; try lia.
  destruct (out_edges graph guard) as [|out0 [|out1 [|]]]; cbn in Hout; try lia.
  cbn [fmap list_fmap index lookup list_lookup bind].
  cbn [with_values data assignments condition_sympy].
  rewrite !length_fmap.
  destruct (decide (_ ∨ _)); [reflexivity|].
  rewrite keys_with_values.
  destruct (index (keys (assignments (data in0))) 0) as [itervar| |]; cbn [bind];
    try reflexivity.
  unfold contains. rewrite keys_with_values.
  destruct (negb _); [reflexivity|].
  cbn [existsb]. rewrite !length_with_values.
  destruct (_ || _); [reflexivity|].
  destruct (decide (_ ≠ _)); [reflexivity|].
  rewrite (immediate_dominators_map _ Hsrc Hdst), (dfs_conditional_map _ Hsrc Hdst).
  cbn [start_state map_edges].
  destruct (sdutil.dfs_conditional _ _ _); [|reflexivity].
  apply check_loop_nodes_same. intros m. apply has_edge_to_map; assumption.
Qed.

(* ===================================================================== *)
(** ** Every loop of the canonical shape *)
(* ===================================================================== *)

Import loops.

(** X7: every loop of the canonical shape is detected, whatever its
    variable, bounds and step.  When the start expression does not contain
    the variable [v], the step expression does, and the condition compares
    [v] with [b], validation returns True and extraction returns [v] with
    that start, the end that the comparison gives from [b], and the step
    minus [v] as stride. *)
Theorem for_loop_detected (v : string) (start step b : expr) (op : relop)
    (expr_index : nat) (strict : bool) :
  has_free_symbol v start = false ->
  has_free_symbol v step = true ->
  can_be_applied (for_loop v start (Rel op (symbol v) b) step) candidate expr_index
                 (for_loop v start (Rel op (symbol v) b) step) strict = Return true ∧
  find_for_loop (for_loop v start (Rel op (symbol v) b) step) guard body =
  Return (Some (v, (start, end_of op b, sub step (symbol v)))).
Proof.
  intros Hstart Hstep. split.
  - rewrite (can_be_applied_all_inside
               (for_loop v start (Rel op (symbol v) b) step)
               (for_loop v start (Rel op (symbol v) b) step)
               candidate expr_index strict guard body
               eq_refl eq_refl [body; guard]).
    + reflexivity.
    + exists (assign init guard v start), (assign body guard v step),
             (branch guard body (Rel op (symbol v) b)),
             (branch guard exit (Not (Rel op (symbol v) b))),
             v, start, step.
      repeat split. cbn. symmetry. apply Not_Rel_involutive.
    + vm_compute. reflexivity.
    + intros n Hn. apply elem_of_cons in Hn as [->|Hn];
        [|apply list_elem_of_singleton in Hn as ->]; vm_compute; reflexivity.
  - rewrite (find_for_loop_classified
               (for_loop v start (Rel op (symbol v) b) step) guard body
               (assign init guard v start) (assign body guard v step) []
               (branch guard body (Rel op (symbol v) b)) []
               v start step [] eq_refl eq_refl eq_refl (getitem_first v step [])).
    rewrite Hstart, Hstep. cbn [branch data condition_sympy].
    assert (find_end (symbol v) (Rel op (symbol v) b) = Some (end_of op b)) as ->
      by (apply find_end_Some; eauto).
    reflexivity.
Qed.

(* ===================================================================== *)
(** ** Validation and the listing order of the edges *)
(* ===================================================================== *)

Section Relisted.

Variables g g' : SDFG.
Hypothesis Hrelisted : relisted g g'.





Lemma in_edges_relisted (n : state) : in_edges g' n ≡ₚ in_edges g n.
Proof.
  destruct Hrelisted as (_ & _ & Hperm & _). unfold in_edges. rewrite Hperm. reflexivity.
Qed.

End Relisted.



(* ===================================================================== *)
(** ** The further theorems at the example graphs *)
(* ===================================================================== *)

Lemma can_be_applied_accepts_iff_witness :
  ∃ guard begin loop_nodes,
    node canonical (candidate _loop_guard) = Return guard ∧
    node canonical (candidate _loop_begin) = Return begin ∧
    passes_edge_checks canonical guard ∧
    sdutil.dfs_conditional canonical [begin] (fun _ child => bool_decide (child ≠ guard))
      = Some loop_nodes ∧
    (∀ n, n ∈ loop_nodes ->
          walk_from (dominance.immediate_dominators canonical (start_state canonical))
            guard n = Return true) ∧
    (∃ n e, n ∈ loop_nodes ∧ e ∈ out_edges canonical n ∧ dst e = guard).
Proof.
  apply (proj1 (can_be_applied_accepts_iff canonical canonical candidate 0 false)).
  vm_compute. reflexivity.
Defined.

(** A candidate whose guard id is 7, in a graph of four states. *)
Lemma can_be_applied_missing_node_witness :
  can_be_applied canonical
    (fun p => match p with _loop_guard => 7%nat | _ => candidate p end) 0 canonical false
  = Raise IndexError.
Proof.
  apply can_be_applied_missing_node. left. vm_compute. lia.
Defined.

(** The loop that the start state does not reach. *)
Lemma can_be_applied_unreachable_begin_witness :
  can_be_applied dead_loop candidate 0 dead_loop false = Raise KeyError.
Proof.
  apply (can_be_applied_unreachable_begin dead_loop dead_loop candidate 0 false
           guard body eq_refl eq_refl).
  - exists (assign other guard "i" (integer 0)), (assign body guard "i" (add i (integer 1))),
           (branch guard body i_lt_10), (branch guard exit (Not i_lt_10)),
           "i", (integer 0), (add i (integer 1)).
    repeat split; vm_compute; reflexivity.
  - vm_compute. reflexivity.
Defined.

(** The restarted loop, whose guard is the start state. *)
Lemma can_be_applied_start_guard_witness :
  can_be_applied restarted restarted_candidate 0 restarted false ≠ Return true.
Proof.
  apply can_be_applied_start_guard. reflexivity.
Defined.

(** The loop whose body is also entered from before the guard. *)
Lemma can_be_applied_outside_node_witness :
  can_be_applied side_entry candidate 0 side_entry false = Return false.
Proof.
  apply (can_be_applied_outside_node side_entry side_entry candidate 0 false
           guard body [] [guard] body 1 init eq_refl eq_refl).
  - vm_compute. reflexivity.
  - apply (climbs_up _ _ body init 0 init);
      [vm_compute; reflexivity | discriminate | discriminate | apply climbs_here].
  - vm_compute. reflexivity.
  - exists (assign init guard "i" (integer 0)), (assign body guard "i" (add i (integer 1))),
           (branch guard body i_lt_10), (branch guard exit (Not i_lt_10)),
           "i", (integer 0), (add i (integer 1)).
    repeat split; vm_compute; reflexivity.
  - intros m Hm. inversion Hm.
Defined.

(** The canonical loop as a match of the first pattern. *)
Lemma can_be_applied_first_pattern_witness :
  can_be_applied canonical candidate 0 canonical false = Return true.
Proof.
  apply (can_be_applied_first_pattern canonical canonical candidate 0 false guard body
           eq_refl eq_refl) with (loop_nodes := [body; guard])
                                 (pattern := {| p_nodes := [_loop_guard; _loop_begin; _exit_state];
                                                p_edges := [ (_loop_guard, _loop_begin, default_edge);
                                                             (_loop_guard, _exit_state, default_edge);
                                                             (_loop_begin, _loop_guard, default_edge) ] |}).
  - exists (assign init guard "i" (integer 0)), (assign body guard "i" (add i (integer 1))),
           (branch guard body i_lt_10), (branch guard exit (Not i_lt_10)),
           "i", (integer 0), (add i (integer 1)).
    repeat split; vm_compute; reflexivity.
  - reflexivity.
  - intros u v d Huv. cbn [p_edges] in Huv.
    repeat (apply elem_of_cons in Huv as [[= -> -> ->]|Huv]);
      [| | |inversion Huv];
      eexists _, _; (split; [reflexivity|]); (split; [reflexivity|]);
      vm_compute; discriminate.
  - vm_compute. reflexivity.
  - intros n Hn. apply elem_of_cons in Hn as [->|Hn];
      [|apply list_elem_of_singleton in Hn as ->]; vm_compute; reflexivity.
Defined.

(** The loop [for k = 3; k <= n; k = k + 2]. *)
Lemma for_loop_detected_witness :
  let g := for_loop "k" (integer 3) (Rel LessThan (symbol "k") (symbol "n"))
             (add (symbol "k") (integer 2)) in
  can_be_applied g candidate 0 g false = Return true ∧
  find_for_loop g guard body =
  Return (Some ("k", (integer 3, symbol "n", integer 2))).
Proof.
  apply (for_loop_detected "k" (integer 3) (add (symbol "k") (integer 2)) (symbol "n")
           LessThan 0 false); vm_compute; reflexivity.
Defined.


(** A third incoming edge of the guard, listed last, changes nothing. *)
Lemma find_for_loop_reads_witness :
  find_for_loop three_incoming guard body = find_for_loop canonical guard body.
Proof.
  apply find_for_loop_reads; reflexivity.
Defined.

Lemma find_for_loop_result_witness :
  ∃ in0 in1 more e0 more0 e1 ce others op a,
    in_edges canonical guard = in0 :: in1 :: more ∧
    assignments (data in0) = ("i", e0) :: more0 ∧
    getitem (assignments (data in1)) "i" = Return e1 ∧
    edges_between canonical guard body = ce :: others ∧
    condition_sympy (data ce) = Rel op (symbol "i") a ∧
    integer 9 = end_of op a ∧
    has_free_symbol "i" (integer 0) = false ∧
    ∃ increment, has_free_symbol "i" increment = true ∧
                 integer 1 = sub increment (symbol "i") ∧
                 ((integer 0 = e0 ∧ increment = e1) ∨ (integer 0 = e1 ∧ increment = e0)).
Proof.
  apply (find_for_loop_result canonical guard body "i" (integer 0) (integer 9) (integer 1)).
  vm_compute. reflexivity.
Defined.

Lemma find_for_loop_after_validation_witness :
  ∃ in0 in1 itervar e0 e1,
    in_edges canonical guard = [in0; in1] ∧
    assignments (data in0) = [(itervar, e0)] ∧
    assignments (data in1) = [(itervar, e1)] ∧
    (find_for_loop canonical guard body = Return None ∨
     ∃ range, find_for_loop canonical guard body = Return (Some (itervar, range))).
Proof.
  apply (find_for_loop_after_validation canonical canonical candidate 0 false guard body).
  - vm_compute. reflexivity.
  - reflexivity.
  - vm_compute. discriminate.
Defined.

Lemma match_to_str_accepted_witness :
  ∃ guard begin in0 in1 itervar e0 e1,
    node canonical (candidate _loop_guard) = Return guard ∧
    node canonical (candidate _loop_begin) = Return begin ∧
    in_edges canonical guard = [in0; in1] ∧
    assignments (data in0) = [(itervar, e0)] ∧
    assignments (data in1) = [(itervar, e1)] ∧
    match_to_str label canonical candidate =
    Return (String.append (join " -> " [label guard; label begin; label exit])
                          (for_loop_over itervar)).
Proof.
  apply (match_to_str_accepted label canonical canonical candidate 0 false exit).
  - vm_compute. reflexivity.
  - reflexivity.
Defined.

(** An exit id that is no node; and the label of the canonical match. *)
Lemma match_to_str_faults_witness :
  match_to_str label canonical
    (fun p => match p with _exit_state => 9%nat | _ => candidate p end)
  = Raise IndexError ∧
  match_to_str label canonical candidate =
  Return (String.append "guard -> body -> exit" (for_loop_over "i")).
Proof.
  split.
  - apply (proj1 (match_to_str_faults label canonical _) _exit_state).
    vm_compute. lia.
  - destruct (proj2 (match_to_str_faults label canonical candidate) guard body exit
                eq_refl eq_refl eq_refl) as [_ H].
    destruct (H (assign init guard "i" (integer 0))
                [assign body guard "i" (add i (integer 1))] eq_refl) as [_ H'].
    apply (H' "i" (integer 0) []). reflexivity.
Defined.

Lemma match_to_str_names_itervar_witness :
  ∃ names,
    String.append "guard -> body -> exit" (for_loop_over "i")
    = String.append names (for_loop_over "i").
Proof.
  apply (match_to_str_names_itervar label canonical candidate guard body "i"
           (integer 0, integer 9, integer 1)).
  - reflexivity.
  - vm_compute. reflexivity.
  - vm_compute. reflexivity.
Defined.


(* ===================================================================== *)
(** ** Extraction after a match, and the listing order of the edges *)
(* ===================================================================== *)

(** X18: for every pattern of [expressions] and every match of it that
    [can_be_applied] accepts, the extraction on the matched guard and
    loop-begin state does not raise: [find_for_loop] returns None or a
    result. *)
Theorem find_for_loop_after_match (graph sdfg : SDFG) (candidate : Candidate)
    (expr_index : nat) (strict : bool) (pattern : Pattern) (guard begin : state) :
  expressions !! expr_index = Some pattern ->
  maps_edges graph candidate pattern ->
  node graph (candidate _loop_guard) = Return guard ->
  node graph (candidate _loop_begin) = Return begin ->
  can_be_applied graph candidate expr_index sdfg strict = Return true ->
  ∃ result, find_for_loop graph guard begin = Return result.
Proof.
  intros Hpattern Hmaps Hguard Hbegin Htrue.
  assert ((_loop_guard, _loop_begin, default_edge) ∈ p_edges pattern) as Hedge.
  { destruct expr_index as [|[|k]]; cbn in Hpattern; [| |discriminate];
      injection Hpattern as <-; left. }
  destruct (Hmaps _ _ _ Hedge) as (su & sv & Hsu & Hsv & Hbetween).
  assert (su = guard) as -> by congruence. assert (sv = begin) as -> by congruence.
  apply can_be_applied_true in Htrue as (guard' & begin' & loop_nodes & Hg & _ & Hedges & _).
  assert (guard' = guard) as -> by congruence.
  destruct Hedges as (in0 & in1 & out0 & out1 & x & e0 & e1 & Hin & _ & H0 & H1 & _).
  destruct (edges_between graph guard begin) as [|ce others] eqn:Hce; [contradiction|].
  rewrite (find_for_loop_classified graph guard begin in0 in1 [] ce others x e0 e1 [])
    by (try assumption; rewrite H1; apply getitem_first).
  eexists. reflexivity.
Qed.

Lemma edges_between_out_edges (g : SDFG) (u v : state) :
  edges_between g u v = filter (fun e => dst e = v) (out_edges g u).
Proof.
  unfold edges_between, out_edges. rewrite list_filter_filter.
  apply list_filter_iff. intros e. tauto.
Qed.

(** X17: for a guard that passes the checks of validation on its edges,
    extraction does not depend on the order in which the edges of the graph
    are listed, as long as the outgoing edges of every state keep their
    order. *)
Theorem find_for_loop_relisted (g g' : SDFG) (guard entry : state) :
  relisted g g' ->
  passes_edge_checks g guard ->
  find_for_loop g' guard entry = find_for_loop g guard entry.
Proof.
  intros Hrel Hedges.
  pose proof (in_edges_relisted _ _ Hrel guard) as Hin.
  destruct Hrel as (_ & _ & _ & Hout).
  assert (edges_between g' guard entry = edges_between g guard entry) as Hbetween
    by (rewrite !edges_between_out_edges, Hout; reflexivity).
  destruct Hedges as (in0 & in1 & out0 & out1 & x & e0 & e1 & Hg & _ & H0 & H1 & _).
  rewrite Hg in Hin. symmetry in Hin.
  apply Permutation_length_2_inv in Hin as [Hsame|Hswap].
  - unfold find_for_loop. rewrite Hbetween, Hsame, Hg. reflexivity.
  - apply (find_for_loop_swap g g' guard entry in0 in1 [] []); try assumption.
    rewrite H0, H1. reflexivity.
Qed.

(** The canonical loop, which carries the two edges of the second pattern. *)
Lemma find_for_loop_after_match_witness :
  ∃ result, find_for_loop canonical guard body = Return result.
Proof.
  apply (find_for_loop_after_match canonical canonical candidate 1 false
           {| p_nodes := [_loop_guard; _loop_begin; _exit_state];
              p_edges := [ (_loop_guard, _loop_begin, default_edge);
                           (_loop_guard, _exit_state, default_edge) ] |}).
  - reflexivity.
  - intros u v d Huv. cbn [p_edges] in Huv.
    repeat (apply elem_of_cons in Huv as [[= -> -> ->]|Huv]);
      [| |inversion Huv];
      eexists _, _; (split; [reflexivity|]); (split; [reflexivity|]);
      vm_compute; discriminate.
  - reflexivity.
  - reflexivity.
  - vm_compute. reflexivity.
Defined.

Lemma find_for_loop_relisted_witness :
  find_for_loop canonical_increment_first guard body = find_for_loop canonical guard body.
Proof.
  apply find_for_loop_relisted.
  - repeat split.
    + cbn [edges canonical canonical_increment_first loop_with].
      etrans; [apply Permutation_cons_append|].
      change ([branch guard body i_lt_10; branch guard exit (Not i_lt_10)]
                ++ [assign init guard "i" (integer 0)]
                ++ [assign body guard "i" (add i (integer 1))]
              ≡ₚ [assign init guard "i" (integer 0)]
                ++ [branch guard body i_lt_10; branch guard exit (Not i_lt_10)]
                ++ [assign body guard "i" (add i (integer 1))]).
      rewrite !app_assoc. apply Permutation_app_tail, Permutation_app_comm.
    + intros n. destruct n as [|[|[|[|n]]]]; reflexivity.
  - exists (assign init guard "i" (integer 0)), (assign body guard "i" (add i (integer 1))),
           (branch guard body i_lt_10), (branch guard exit (Not i_lt_10)),
           "i", (integer 0), (add i (integer 1)).
    repeat split; vm_compute; reflexivity.
Defined.
